(** * Habitat ranking: edge weights, graph construction, ranking order

    A shallow embedding of [habitat_ranker.py].  The script reads habitat
    patches, builds a weighted directed graph with NetworkX, runs PageRank and
    prints the patches by decreasing score.

    Numbers.  The script computes with NumPy [float64] scalars: every row of
    the table is a row of floats as soon as one of its columns holds a
    non-integer value.  A table whose columns are all integers gives rows of
    64-bit integers, whose arithmetic wraps around; such tables are not
    covered here.  Two embeddings of the arithmetic are used.

    - [npfloat]: a real number, one of the two infinities, or NaN.  The
      special values follow IEEE 754 as NumPy applies it (an invalid operation
      yields NaN and a warning, never an exception).  Finite values are
      computed exactly: rounding, overflow, underflow and the sign of zero are
      left out.  The general theorems are stated on this embedding, and only
      in forms that rounding preserves: equalities between values the script
      computes, comparisons with a threshold, monotonicity that is not strict.
    - [Binary64]: the same function on IEEE binary64 values, with [np.exp]
      taken as a parameter.  It evaluates concrete inputs, and shows where
      rounding and underflow make the script differ from exact arithmetic. *)

From Stdlib Require Import Reals Lra List Bool ZArith Lia Permutation Sorted.
From Stdlib Require PrimFloat.
Import ListNotations.

Local Open Scope R_scope.

(** ** NumPy scalars *)

Module NpFloat.

Inductive npfloat : Type :=
| Fin (r : R)
| PInf
| NInf
| NaN.

Definition Rltb (a b : R) : bool := if Rlt_dec a b then true else false.

(** [-a] *)
Definition neg (a : npfloat) : npfloat :=
  match a with
  | Fin r => Fin (- r)
  | PInf => NInf
  | NInf => PInf
  | NaN => NaN
  end.

(** [a + b] *)
Definition add (a b : npfloat) : npfloat :=
  match a, b with
  | NaN, _ | _, NaN => NaN
  | Fin r, Fin s => Fin (r + s)
  | PInf, NInf | NInf, PInf => NaN
  | PInf, _ | _, PInf => PInf
  | NInf, _ | _, NInf => NInf
  end.

(** [a - b] *)
Definition sub (a b : npfloat) : npfloat := add a (neg b).

(** The infinity with the sign of [r], NaN when [r] is zero. *)
Definition signed_inf (positive : bool) (r : R) : npfloat :=
  if Rltb 0 r then (if positive then PInf else NInf)
  else if Rltb r 0 then (if positive then NInf else PInf)
  else NaN.

(** [a * b] *)
Definition mul (a b : npfloat) : npfloat :=
  match a, b with
  | NaN, _ | _, NaN => NaN
  | Fin r, Fin s => Fin (r * s)
  | PInf, Fin s => signed_inf true s
  | NInf, Fin s => signed_inf false s
  | Fin r, PInf => signed_inf true r
  | Fin r, NInf => signed_inf false r
  | PInf, PInf | NInf, NInf => PInf
  | PInf, NInf | NInf, PInf => NInf
  end.

(** [a ** 2]: NumPy squares the scalar. *)
Definition square (a : npfloat) : npfloat := mul a a.

(** [a / b].  A zero divisor counts as positive zero. *)
Definition div (a b : npfloat) : npfloat :=
  match a, b with
  | NaN, _ | _, NaN => NaN
  | Fin r, Fin s =>
      if Rltb s 0 then Fin (r / s)
      else if Rltb 0 s then Fin (r / s)
      else signed_inf true r
  | Fin _, _ => Fin 0
  | PInf, Fin s => if Rltb s 0 then NInf else PInf
  | NInf, Fin s => if Rltb s 0 then PInf else NInf
  | _, _ => NaN
  end.

(** [np.sqrt(a)] *)
Definition np_sqrt (a : npfloat) : npfloat :=
  match a with
  | Fin r => if Rltb r 0 then NaN else Fin (sqrt r)
  | PInf => PInf
  | NInf | NaN => NaN
  end.

(** [np.exp(a)] *)
Definition np_exp (a : npfloat) : npfloat :=
  match a with
  | Fin r => Fin (exp r)
  | PInf => PInf
  | NInf => Fin 0
  | NaN => NaN
  end.

(** [a < b]; every comparison with NaN is false. *)
Definition lt (a b : npfloat) : bool :=
  match a, b with
  | NaN, _ | _, NaN => false
  | Fin r, Fin s => Rltb r s
  | Fin _, PInf | NInf, Fin _ | NInf, PInf => true
  | Fin _, NInf | NInf, NInf | PInf, _ => false
  end.

(** [a > b] *)
Definition gt (a b : npfloat) : bool := lt b a.

End NpFloat.

Import NpFloat.

(** ** The edge weight *)

(** A row of the patch table: the columns [x], [y] and [quality]. *)
Record patch : Type := mkPatch {
  x : npfloat;
  y : npfloat;
  quality : npfloat
}.

(** [calculate_edge_weight(patch1, patch2, dispersal_dist)] *)
Definition calculate_edge_weight (patch1 patch2 : patch) (dispersal_dist : npfloat)
  : npfloat :=
  let distance :=
    np_sqrt (add (square (sub (x patch1) (x patch2)))
                 (square (sub (y patch1) (y patch2)))) in
  let distance_factor := np_exp (div (neg distance) dispersal_dist) in
  let quality_factor := np_sqrt (mul (quality patch1) (quality patch2)) in
  mul distance_factor quality_factor.

(** A patch as the data model describes it: real coordinates and a real
    quality. *)
Definition real_patch (px py q : R) : patch := mkPatch (Fin px) (Fin py) (Fin q).

(** The value of the weight on real patches, in closed form. *)
Definition weight_formula (xa ya qa xb yb qb d : R) : R :=
  exp (- sqrt ((xa - xb) * (xa - xb) + (ya - yb) * (ya - yb)) / d) * sqrt (qa * qb).

(** ** The edge weight on binary64 values *)

Module Binary64.

Import PrimFloat.
Local Open Scope float_scope.

(** A row of the patch table, its columns as binary64 values. *)
Record patch : Type := mkPatch {
  x : float;
  y : float;
  quality : float
}.

(** [calculate_edge_weight(patch1, patch2, dispersal_dist)], every operation
    rounded as IEEE 754 prescribes; [np_exp] stands for [np.exp]. *)
Definition calculate_edge_weight (np_exp : float -> float)
    (patch1 patch2 : patch) (dispersal_dist : float) : float :=
  let distance :=
    sqrt ((x patch1 - x patch2) * (x patch1 - x patch2)
          + (y patch1 - y patch2) * (y patch1 - y patch2)) in
  let distance_factor := np_exp (- distance / dispersal_dist) in
  let quality_factor := sqrt (quality patch1 * quality patch2) in
  distance_factor * quality_factor.


Definition DISPERSAL_DISTANCE : float := 15.



(** Two patches at the origin whose qualities are neighbouring floats, and a
    patch of quality 1 at distance 5. *)
Definition unit_patch : patch := mkPatch 0 0 1.
Definition next_patch : patch := mkPatch 0 0 0x1.0000000000001p0.
Definition far_patch : patch := mkPatch 3 4 1.


End Binary64.

(** ** Python dictionaries *)

(** Identifiers are compared with [==] / [!=]. *)
Class EqDec (A : Type) := eq_dec : forall a b : A, {a = b} + {a <> b}.

#[export] Instance Z_EqDec : EqDec Z := Z.eq_dec.

(** A [dict] keeps its keys in insertion order; assigning to a key that is
    present replaces the value in place. *)
Module Dict.

Section Ops.

Context {K V : Type} `{EqDec K}.

Definition dict : Type := list (K * V).

Fixpoint get (k : K) (d : dict) : option V :=
  match d with
  | [] => None
  | (k', v) :: d' => if eq_dec k k' then Some v else get k d'
  end.

Fixpoint set (k : K) (v : V) (d : dict) : dict :=
  match d with
  | [] => [(k, v)]
  | (k', v') :: d' =>
      if eq_dec k k' then (k', v) :: d' else (k', v') :: set k v d'
  end.

Definition mem (k : K) (d : dict) : bool :=
  match get k d with Some _ => true | None => false end.

Definition keys (d : dict) : list K := map fst d.

End Ops.

Arguments dict : clear implicits.

End Dict.

(** ** The NetworkX graph, as far as the script uses it *)

Module Nx.

(** The attributes [main] gives a node: [quality=...] and [pos=(x, y)]. *)
Record node_attrs : Type := mkAttrs {
  attr_quality : npfloat;
  attr_pos : npfloat * npfloat
}.

Section Graph.

Context {Id : Type} `{EqDec Id}.

(** [_node] maps a node to its attribute dictionary ([None] is the empty
    dictionary of a node created by [add_edge]); [_adj] maps a source to the
    dictionary of its successors, each with the edge's [weight]. *)
Record DiGraph : Type := mkDiGraph {
  node : Dict.dict Id (option node_attrs);
  adj : Dict.dict Id (Dict.dict Id npfloat)
}.

(** [nx.DiGraph()] *)
Definition empty : DiGraph := mkDiGraph [] [].

(** [G.add_node(n, quality=..., pos=...)] *)
Definition add_node (G : DiGraph) (n : Id) (a : node_attrs) : DiGraph :=
  if Dict.mem n (node G)
  then mkDiGraph (Dict.set n (Some a) (node G)) (adj G)
  else mkDiGraph (Dict.set n (Some a) (node G)) (Dict.set n [] (adj G)).

(** The start of [add_edge]: an endpoint that is not yet a node becomes one,
    with no attributes. *)
Definition touch (G : DiGraph) (n : Id) : DiGraph :=
  if Dict.mem n (adj G) then G
  else mkDiGraph (Dict.set n None (node G)) (Dict.set n [] (adj G)).

(** [G.add_edge(u, v, weight=w)] *)
Definition add_edge (G : DiGraph) (u v : Id) (w : npfloat) : DiGraph :=
  let G1 := touch (touch G u) v in
  let succ_u := match Dict.get u (adj G1) with Some d => d | None => [] end in
  mkDiGraph (node G1) (Dict.set u (Dict.set v w succ_u) (adj G1)).

(** [G[u][v]['weight']], when the edge exists. *)
Definition edge_weight (G : DiGraph) (u v : Id) : option npfloat :=
  match Dict.get u (adj G) with
  | Some d => Dict.get v d
  | None => None
  end.

(** [G.has_edge(u, v)] *)
Definition has_edge (G : DiGraph) (u v : Id) : bool :=
  match edge_weight G u v with Some _ => true | None => false end.

(** Every node has an adjacency entry. *)
Definition adjacency_covers_nodes (G : DiGraph) : Prop :=
  forall n, Dict.mem n (node G) = true -> Dict.mem n (adj G) = true.

(** [G.edges(data='weight')]: the edges in adjacency order. *)
Definition edges (G : DiGraph) : list (Id * Id * npfloat) :=
  flat_map (fun '(u, d) => map (fun '(v, w) => (u, v, w)) d) (adj G).

End Graph.

Arguments DiGraph Id : clear implicits.

End Nx.

(** ** Network construction (step 2 of [main]) *)

Definition DISPERSAL_DISTANCE : npfloat := Fin 15.
Definition DAMPING_FACTOR : R := 85 / 100.
Definition WEIGHT_THRESHOLD : npfloat := Fin (1 / 100).

Section Network.

Context {Id : Type} `{EqDec Id}.

(** [patches_df.iterrows()] after [set_index('id')]: the rows in file order,
    each with the value of its [id] column. *)
Definition rows : Type := list (Id * patch).

Definition attrs_of (data : patch) : Nx.node_attrs :=
  Nx.mkAttrs (quality data) (x data, y data).

(** The first loop: one [add_node] per row. *)
Definition add_nodes (patches_df : rows) (G : Nx.DiGraph Id) : Nx.DiGraph Id :=
  fold_left (fun G row => Nx.add_node G (fst row) (attrs_of (snd row)))
            patches_df G.

(** The body of the inner loop. *)
Definition visit_pair (dispersal_dist weight_threshold : npfloat)
    (source target : Id * patch) (G : Nx.DiGraph Id) : Nx.DiGraph Id :=
  if eq_dec (fst source) (fst target) then G
  else
    let weight := calculate_edge_weight (snd source) (snd target) dispersal_dist in
    if gt weight weight_threshold
    then Nx.add_edge G (fst source) (fst target) weight
    else G.

(** The same step, on a pair of rows. *)
Definition visit (dispersal_dist weight_threshold : npfloat)
    (G : Nx.DiGraph Id) (st : (Id * patch) * (Id * patch)) : Nx.DiGraph Id :=
  visit_pair dispersal_dist weight_threshold (fst st) (snd st) G.

(** The pair of rows [st] makes the loop body put an edge from [u] to [v]. *)
Definition fires (dispersal_dist weight_threshold : npfloat) (u v : Id)
    (st : (Id * patch) * (Id * patch)) : Prop :=
  fst (fst st) = u /\ fst (snd st) = v /\ u <> v
  /\ gt (calculate_edge_weight (snd (fst st)) (snd (snd st)) dispersal_dist)
        weight_threshold = true.

(** The two nested loops over the rows. *)
Definition add_edges (dispersal_dist weight_threshold : npfloat)
    (patches_df : rows) (G : Nx.DiGraph Id) : Nx.DiGraph Id :=
  fold_left
    (fun G source =>
       fold_left
         (fun G target => visit_pair dispersal_dist weight_threshold source target G)
         patches_df G)
    patches_df G.

Definition build_graph (patches_df : rows) (dispersal_dist weight_threshold : npfloat)
  : Nx.DiGraph Id :=
  add_edges dispersal_dist weight_threshold patches_df (add_nodes patches_df Nx.empty).

(** The last row carrying identifier [i], if any. *)
Definition last_row (i : Id) (patches_df : rows) : option patch :=
  Dict.get i (rev patches_df).

End Network.

(** ** Sorting the scores *)

(** [sorted(iterable, key=..., reverse=...)].  The sort is stable and compares
    keys with [<] only; a reversed sort reverses the list, sorts it, and
    reverses the result.  A stable insertion sort stands for CPython's merge
    sort: on keys that [<] orders totally both give the same list. *)
Section Sorted.

Context {A K : Type}.
Variable key : A -> K.
Variable ltb : K -> K -> bool.

Fixpoint insert (a : A) (l : list A) : list A :=
  match l with
  | [] => [a]
  | b :: l' => if ltb (key b) (key a) then b :: insert a l' else a :: b :: l'
  end.

Definition stable_sort (l : list A) : list A := fold_right insert [] l.

Definition sorted (reverse : bool) (l : list A) : list A :=
  if reverse then rev (stable_sort (rev l)) else stable_sort l.

End Sorted.

(** [sorted(pagerank_scores.items(), key=lambda item: item[1], reverse=True)] *)
Definition sorted_ranks {Id : Type} (items : list (Id * R)) : list (Id * R) :=
  sorted snd Rltb true items.

(** ** Visualisation (step 4 of [main]) *)

Section Drawing.

Context {Id : Type} `{EqDec Id}.

(** [nx.get_node_attributes(G, 'pos')]: the nodes that have a [pos]
    attribute, each with its position, in node order. *)
Definition get_node_attributes_pos (G : Nx.DiGraph Id)
  : Dict.dict Id (npfloat * npfloat) :=
  flat_map
    (fun na => match snd na with
               | Some a => [(fst na, Nx.attr_pos a)]
               | None => []
               end)
    (Nx.node G).

(** [[G[u][v]['weight'] * 5 for u, v in G.edges()]]; [None] stands for the
    [KeyError] of a lookup that fails. *)
Definition edge_widths (G : Nx.DiGraph Id) : list (option npfloat) :=
  map (fun e => option_map (fun w => mul w (Fin 5))
                           (Nx.edge_weight G (fst (fst e)) (snd (fst e))))
      (Nx.edges G).

End Drawing.

(** ** The stationary-distribution solver *)

(** [sumR f l] is the sum of [f a] over the elements [a] of [l]. *)
Definition sumR {A : Type} (f : A -> R) (l : list A) : R :=
  fold_right (fun a acc => f a + acc) 0 l.

Module PageRankSolver.

Section Solver.

Context {Id : Type} `{EqDec Id}.

(** Modelled from the spec: the weighted directed graph handed to the solver.
    [main] obtains its scores from NetworkX's [pagerank], whose code is not
    part of the script; the graph and the solver below follow sections 3 and
    4.3 of the specification. *)
Record graph : Type := mkGraph {
  nodes : list Id;
  edges : list (Id * Id * R)
}.

Definition src (e : Id * Id * R) : Id := fst (fst e).
Definition tgt (e : Id * Id * R) : Id := snd (fst e).
Definition wt (e : Id * Id * R) : R := snd e.

(** The invariants of the data model: node identifiers are unique, edges join
    nodes, weights are positive. *)
Definition well_formed (g : graph) : Prop :=
  NoDup (nodes g) /\
  (forall e, In e (edges g) -> In (src e) (nodes g) /\ In (tgt e) (nodes g)) /\
  (forall e, In e (edges g) -> 0 < wt e).

(** Modelled from the spec: the outcome of the solver, a distribution or a
    convergence failure carrying the residual of the last iterate (none when
    no iteration was allowed). *)
Inductive outcome : Type :=
| Converged (scores : list (Id * R))
| ConvergenceFailure (residual : option R).

Variable g : graph.
Variable dampingFactor : R.
Variable tolerance : R.

Definition n : R := INR (length (nodes g)).

Definition from (u : Id) (e : Id * Id * R) : bool :=
  if eq_dec (src e) u then true else false.

Definition into (v : Id) (e : Id * Id * R) : bool :=
  if eq_dec (tgt e) v then true else false.

(** Modelled from the spec: the sum of a node's outgoing weights. *)
Definition out_weight (u : Id) : R :=
  sumR (fun e => if from u e then wt e else 0) (edges g).

(** Modelled from the spec: a dangling node has no outgoing edge. *)
Definition dangling (u : Id) : bool :=
  forallb (fun e => negb (from u e)) (edges g).

(** Modelled from the spec: weight / sum of that node's outgoing weights. *)
Definition transitionProb (e : Id * Id * R) : R :=
  wt e / out_weight (src e).

(** Modelled from the spec: step 4 of the solver, the new score of [v] from
    the score vector [score]. *)
Definition newScore (score : Id -> R) (v : Id) : R :=
  (1 - dampingFactor) / n
  + dampingFactor
    * (sumR (fun d => if dangling d then score d / n else 0) (nodes g)
       + sumR (fun e => if into v e then score (src e) * transitionProb e else 0)
              (edges g)).

(** Modelled from the spec: the left side of the convergence test of step 5. *)
Definition residual_of (new old : Id -> R) : R :=
  sumR (fun v => Rabs (new v - old v)) (nodes g).

Definition distribution (score : Id -> R) : list (Id * R) :=
  map (fun v => (v, score v)) (nodes g).

(** Modelled from the spec: steps 4 and 5, at most [fuel] more times. *)
Fixpoint iterate (fuel : nat) (score : Id -> R) (last : option R) : outcome :=
  match fuel with
  | O => ConvergenceFailure last
  | S fuel' =>
      let new := newScore score in
      let r := residual_of new score in
      if Rltb r (n * tolerance) then Converged (distribution new)
      else iterate fuel' new (Some r)
  end.

(** Modelled from the spec: step 3, every node gets 1/n. *)
Definition initial : Id -> R := fun _ => 1 / n.

(** Modelled from the spec: [solve(graph, dampingFactor, tolerance,
    maxIterations)]. *)
Definition solve (maxIterations : nat) : outcome :=
  match nodes g with
  | [] => Converged []
  | _ => iterate maxIterations initial None
  end.

(** The score vector after [k] updates, and the residual of the [k]-th. *)
Fixpoint iterateN (k : nat) : Id -> R :=
  match k with
  | O => initial
  | S k' => newScore (iterateN k')
  end.

Definition residualN (k : nat) : R :=
  residual_of (iterateN k) (iterateN (pred k)).

End Solver.

Arguments graph Id : clear implicits.
Arguments outcome Id : clear implicits.

End PageRankSolver.

(** ** Definitions used to state the claims *)

(** Two patches at distance 5, both of quality 1. *)
Definition two_patches : @rows Z :=
  [(1%Z, real_patch 0 0 1); (2%Z, real_patch 3 4 1)].

(** Two records with the same identifier. *)
Definition duplicated_patch : @rows Z :=
  [(1%Z, real_patch 0 0 1); (1%Z, real_patch 3 4 (1 / 2))].

(** A patch of quality 0 beside a patch of quality 1. *)
Definition barren_and_good : @rows Z :=
  [(1%Z, real_patch 0 0 0); (2%Z, real_patch 3 4 1)].

(** Two patches at the same place, both of quality 1. *)
Definition coincident_patches : @rows Z :=
  [(1%Z, real_patch 0 0 1); (2%Z, real_patch 0 0 1)].

(** A graph with a single node and no edge. *)
Definition lone_node : PageRankSolver.graph Z := PageRankSolver.mkGraph [1%Z] [].

(** Equal scores are ordered by ascending identifier in [out]. *)
Definition ties_by_identifier (out : list (Z * R)) : Prop :=
  forall l1 a l2 b l3 s,
    out = l1 ++ (a, s) :: l2 ++ (b, s) :: l3 -> (a < b)%Z.

(** The items of [l] whose score is [s], in the order of [l]. *)
Definition with_score {Id : Type} (s : R) (l : list (Id * R)) : list (Id * R) :=
  filter (fun it => if Req_dec_T (snd it) s then true else false) l.

(** Scores never decrease along [l]. *)
Definition ascending {Id : Type} (l : list (Id * R)) : Prop :=
  StronglySorted (fun a b => snd a <= snd b) l.

(** Scores never increase along [l]. *)
Definition descending {Id : Type} (l : list (Id * R)) : Prop :=
  StronglySorted (fun a b => snd b <= snd a) l.

(** * Properties *)

(** ** NumPy scalars *)

Lemma Rltb_true (a b : R) : a < b -> Rltb a b = true.
Proof. intros Hab. unfold Rltb. destruct (Rlt_dec a b); [reflexivity | contradiction]. Qed.

Lemma Rltb_false (a b : R) : ~ a < b -> Rltb a b = false.
Proof. intros Hab. unfold Rltb. destruct (Rlt_dec a b); [contradiction | reflexivity]. Qed.

Lemma Rltb_iff (a b : R) : Rltb a b = true <-> a < b.
Proof.
  unfold Rltb. destruct (Rlt_dec a b); split; intros; try assumption;
    try reflexivity; try discriminate; contradiction.
Qed.

Lemma Rltb_irrefl (a : R) : Rltb a a = false.
Proof. apply Rltb_false. lra. Qed.

Lemma mul_comm (a b : npfloat) : mul a b = mul b a.
Proof.
  destruct a, b; simpl; try reflexivity.
  f_equal. apply Rmult_comm.
Qed.

Lemma mul_NaN_r (a : npfloat) : mul a NaN = NaN.
Proof. destruct a; reflexivity. Qed.

Lemma square_sub_sym (a b : npfloat) : square (sub a b) = square (sub b a).
Proof.
  destruct a, b; unfold square, sub; simpl; try reflexivity.
  f_equal. ring.
Qed.

Lemma gt_NaN_l (t : npfloat) : gt NaN t = false.
Proof. destruct t; reflexivity. Qed.

(** ** The edge weight *)

Lemma sum_squares_nonneg (a b : R) : ~ a * a + b * b < 0.
Proof.
  intros Hneg.
  pose proof (Rle_0_sqr a) as Ha. pose proof (Rle_0_sqr b) as Hb.
  unfold Rsqr in Ha, Hb. lra.
Qed.

(** On real patches with a non-negative product of qualities and a non-zero
    dispersal distance the weight is the closed formula. *)
Lemma calculate_edge_weight_real (xa ya qa xb yb qb d : R) :
  0 <= qa * qb -> d <> 0 ->
  calculate_edge_weight (real_patch xa ya qa) (real_patch xb yb qb) (Fin d)
  = Fin (weight_formula xa ya qa xb yb qb d).
Proof.
  intros Hq Hd.
  unfold calculate_edge_weight, real_patch, weight_formula, square, sub; simpl.
  rewrite (Rltb_false (_ + _) 0) by apply sum_squares_nonneg.
  rewrite (Rltb_false (qa * qb) 0) by lra.
  simpl.
  assert (Hsel : forall u w : npfloat,
             (if Rltb d 0 then u else if Rltb 0 d then u else w) = u).
  { intros u w. destruct (Rlt_dec d 0) as [Hneg | Hnneg].
    - rewrite (Rltb_true d 0) by assumption. reflexivity.
    - rewrite (Rltb_false d 0) by assumption.
      rewrite (Rltb_true 0 d) by lra. reflexivity. }
  rewrite Hsel. simpl.
  reflexivity.
Qed.

(** Swapping the two patches leaves every intermediate value unchanged. *)
Lemma calculate_edge_weight_swap (patch1 patch2 : patch) (d : npfloat) :
  calculate_edge_weight patch1 patch2 d = calculate_edge_weight patch2 patch1 d.
Proof.
  unfold calculate_edge_weight.
  now rewrite (square_sub_sym (x patch1)), (square_sub_sym (y patch1)),
    (mul_comm (quality patch1)).
Qed.

(** C2.  The edge weight is symmetric in its two patch arguments: for all
    patches and every dispersal distance, [calculate_edge_weight] returns the
    same float for (A, B) and for (B, A). *)
Theorem calculate_edge_weight_symmetric (patch1 patch2 : patch) (dispersal_dist : npfloat) :
  calculate_edge_weight patch1 patch2 dispersal_dist
  = calculate_edge_weight patch2 patch1 dispersal_dist.
Proof.
  unfold calculate_edge_weight.
  rewrite (square_sub_sym (x patch1) (x patch2)).
  rewrite (square_sub_sym (y patch1) (y patch2)).
  rewrite (mul_comm (quality patch1) (quality patch2)).
  reflexivity.
Qed.

Lemma mul_one_l (a : npfloat) : mul (Fin 1) a = a.
Proof.
  destruct a; simpl; unfold signed_inf;
    rewrite ?(Rltb_true 0 1) by lra; try reflexivity.
  f_equal. ring.
Qed.

(** At distance 0 the distance factor is exactly 1. *)
Lemma coincident_distance_factor (px py d : R) :
  0 < d ->
  np_exp (div (neg (np_sqrt (add (square (sub (Fin px) (Fin px)))
                                 (square (sub (Fin py) (Fin py))))))
              (Fin d))
  = Fin 1.
Proof.
  intros Hd. unfold square, sub. simpl.
  rewrite (Rltb_false (_ + _) 0) by apply sum_squares_nonneg.
  simpl. rewrite (Rltb_false d 0), (Rltb_true 0 d) by lra.
  simpl. f_equal.
  replace ((px + - px) * (px + - px) + (py + - py) * (py + - py)) with 0 by ring.
  rewrite sqrt_0. replace (- 0 / d) with 0 by (field; lra).
  apply exp_0.
Qed.





(** C5, as stated, fails: against a patch of quality 0 the weight is 0
    whatever the other quality is, so raising the quality from 1 to 2 does not
    raise the weight. *)
Lemma quality_increase_without_effect :
  lt (calculate_edge_weight (real_patch 0 0 1) (real_patch 3 4 0) (Fin 15))
     (calculate_edge_weight (real_patch 0 0 2) (real_patch 3 4 0) (Fin 15))
  = false.
Proof.
  rewrite !calculate_edge_weight_real by lra.
  unfold weight_formula.
  replace (1 * 0) with 0 by ring. replace (2 * 0) with 0 by ring.
  rewrite sqrt_0, !Rmult_0_r. simpl. apply Rltb_irrefl.
Qed.

(** On binary64 values, raising a quality to the next float leaves the
    weight unchanged: the quality factor rounds to the same value. *)
Lemma adjacent_qualities_equal_weight (np_exp : PrimFloat.float -> PrimFloat.float) :
  Binary64.calculate_edge_weight np_exp Binary64.unit_patch Binary64.far_patch
    Binary64.DISPERSAL_DISTANCE
  = Binary64.calculate_edge_weight np_exp Binary64.next_patch Binary64.far_patch
      Binary64.DISPERSAL_DISTANCE.
Proof. vm_compute. reflexivity. Qed.

(** C5, amended.  For real patches at fixed positions, non-negative
    qualities and a positive dispersal distance, raising the quality of
    either patch never lowers the weight; and against a patch of quality 0
    the weight is 0 whatever the other quality is. *)
Theorem calculate_edge_weight_monotone_in_quality
    (xa ya xb yb qa qa' qb d : R) :
  0 <= qa -> qa <= qa' -> 0 <= qb -> 0 < d ->
  lt (calculate_edge_weight (real_patch xa ya qa') (real_patch xb yb qb) (Fin d))
     (calculate_edge_weight (real_patch xa ya qa) (real_patch xb yb qb) (Fin d))
  = false
  /\
  lt (calculate_edge_weight (real_patch xb yb qb) (real_patch xa ya qa') (Fin d))
     (calculate_edge_weight (real_patch xb yb qb) (real_patch xa ya qa) (Fin d))
  = false
  /\
  (qb = 0 ->
   calculate_edge_weight (real_patch xa ya qa) (real_patch xb yb qb) (Fin d) = Fin 0
   /\ calculate_edge_weight (real_patch xa ya qa') (real_patch xb yb qb) (Fin d)
      = Fin 0).
Proof.
  intros Hqa Hle Hqb Hd.
  assert (Hmono :
    lt (calculate_edge_weight (real_patch xa ya qa') (real_patch xb yb qb) (Fin d))
       (calculate_edge_weight (real_patch xa ya qa) (real_patch xb yb qb) (Fin d))
    = false).
  { rewrite !calculate_edge_weight_real by nra.
    unfold weight_formula. simpl. apply Rltb_false.
    apply Rle_not_lt, Rmult_le_compat_l; [apply Rlt_le, exp_pos |].
    apply sqrt_le_1_alt. nra. }
  split; [exact Hmono |]. split.
  - rewrite (calculate_edge_weight_swap (real_patch xb yb qb) (real_patch xa ya qa')).
    rewrite (calculate_edge_weight_swap (real_patch xb yb qb) (real_patch xa ya qa)).
    exact Hmono.
  - intros ->. rewrite !calculate_edge_weight_real by nra.
    unfold weight_formula. rewrite !Rmult_0_r, sqrt_0, Rmult_0_r. tauto.
Qed.

Lemma calculate_edge_weight_monotone_in_quality_witness :
  (0 <= 1 /\ 1 <= 2 /\ 0 <= 1 /\ 0 < 15)
  /\
  lt (calculate_edge_weight (real_patch 0 0 2) (real_patch 3 4 1) (Fin 15))
     (calculate_edge_weight (real_patch 0 0 1) (real_patch 3 4 1) (Fin 15))
  = false
  /\
  lt (calculate_edge_weight (real_patch 3 4 1) (real_patch 0 0 2) (Fin 15))
     (calculate_edge_weight (real_patch 3 4 1) (real_patch 0 0 1) (Fin 15))
  = false
  /\
  (1 = 0 ->
   calculate_edge_weight (real_patch 0 0 1) (real_patch 3 4 1) (Fin 15) = Fin 0
   /\ calculate_edge_weight (real_patch 0 0 2) (real_patch 3 4 1) (Fin 15) = Fin 0).
Proof.
  split; [lra |].
  apply (calculate_edge_weight_monotone_in_quality 0 0 3 4 1 2 1 15); lra.
Defined.

(** C7, as stated, fails: a record of quality -1 paired with one of quality 1
    makes [np.sqrt] return NaN, and the function returns NaN. *)
Lemma negative_quality_yields_NaN :
  calculate_edge_weight (real_patch 0 0 (-1)) (real_patch 1 0 1) (Fin 15) = NaN.
Proof.
  unfold calculate_edge_weight, real_patch. cbn [quality mul np_sqrt].
  rewrite (Rltb_true (-1 * 1) 0) by lra.
  apply mul_NaN_r.
Qed.

Lemma calculate_edge_weight_NaN_quality (patch1 patch2 : patch) (d : npfloat) (q1 q2 : R) :
  quality patch1 = Fin q1 -> quality patch2 = Fin q2 -> q1 * q2 < 0 ->
  calculate_edge_weight patch1 patch2 d = NaN.
Proof.
  intros H1 H2 Hneg. unfold calculate_edge_weight. rewrite H1, H2.
  cbn [mul np_sqrt]. rewrite (Rltb_true (q1 * q2) 0) by assumption.
  apply mul_NaN_r.
Qed.

Lemma calculate_edge_weight_NaN_coordinate (patch1 patch2 : patch) (d : npfloat) :
  x patch1 = NaN \/ y patch1 = NaN ->
  calculate_edge_weight patch1 patch2 d = NaN.
Proof.
  intros Hnan. unfold calculate_edge_weight.
  assert (Hdist :
    np_sqrt (add (square (sub (x patch1) (x patch2)))
                 (square (sub (y patch1) (y patch2)))) = NaN).
  { destruct Hnan as [Hx | Hy].
    - rewrite Hx. cbn. reflexivity.
    - rewrite Hy. cbn.
      destruct (square (sub (x patch1) (x patch2))); reflexivity. }
  rewrite Hdist. reflexivity.
Qed.

(** C7, amended.  A pair of records whose qualities have a negative product,
    or whose first record has a NaN coordinate, raises no error: the weight
    is NaN (or a zero, when a negative product underflows), it is not above
    any non-negative threshold, and the loop body leaves the graph as it was
    and goes on. *)
Theorem invalid_record_adds_no_edge {Id : Type} `{EqDec Id}
    (source target : Id * patch) (dispersal_dist : npfloat) (t : R)
    (G : Nx.DiGraph Id) :
  (exists q1 q2, quality (snd source) = Fin q1 /\ quality (snd target) = Fin q2
                 /\ q1 * q2 < 0)
  \/ x (snd source) = NaN \/ y (snd source) = NaN ->
  0 <= t ->
  (calculate_edge_weight (snd source) (snd target) dispersal_dist = NaN
   \/ calculate_edge_weight (snd source) (snd target) dispersal_dist = Fin 0)
  /\ gt (calculate_edge_weight (snd source) (snd target) dispersal_dist) (Fin t)
     = false
  /\ visit_pair dispersal_dist (Fin t) source target G = G.
Proof.
  intros Hbad Ht.
  assert (Hnan : calculate_edge_weight (snd source) (snd target) dispersal_dist = NaN).
  { destruct Hbad as [(q1 & q2 & H1 & H2 & Hneg) | Hcoord].
    - exact (calculate_edge_weight_NaN_quality _ _ _ q1 q2 H1 H2 Hneg).
    - exact (calculate_edge_weight_NaN_coordinate _ _ _ Hcoord). }
  split; [left; exact Hnan |].
  split; [rewrite Hnan; apply gt_NaN_l |].
  unfold visit_pair. destruct (eq_dec (fst source) (fst target)); [reflexivity |].
  rewrite Hnan, gt_NaN_l. reflexivity.
Qed.

Lemma invalid_record_adds_no_edge_witness :
  (((exists q1 q2, Fin (-1) = Fin q1 /\ Fin 1 = Fin q2 /\ q1 * q2 < 0)
    \/ Fin 0 = NaN \/ Fin 0 = NaN)
   /\ 0 <= 1 / 100)
  /\ (calculate_edge_weight (real_patch 0 0 (-1)) (real_patch 1 0 1) DISPERSAL_DISTANCE
      = NaN
      \/ calculate_edge_weight (real_patch 0 0 (-1)) (real_patch 1 0 1)
           DISPERSAL_DISTANCE = Fin 0)
  /\ gt (calculate_edge_weight (real_patch 0 0 (-1)) (real_patch 1 0 1)
           DISPERSAL_DISTANCE) (Fin (1 / 100)) = false
  /\ visit_pair DISPERSAL_DISTANCE (Fin (1 / 100))
       (1%Z, real_patch 0 0 (-1)) (2%Z, real_patch 1 0 1) Nx.empty = Nx.empty.
Proof.
  assert (Hbad : (exists q1 q2, Fin (-1) = Fin q1 /\ Fin 1 = Fin q2 /\ q1 * q2 < 0)
                 \/ Fin 0 = NaN \/ Fin 0 = NaN).
  { left. exists (-1), 1. repeat split; lra. }
  assert (Ht : 0 <= 1 / 100) by lra.
  split; [split; assumption |].
  exact (invalid_record_adds_no_edge
           (1%Z, real_patch 0 0 (-1)) (2%Z, real_patch 1 0 1)
           DISPERSAL_DISTANCE (1 / 100) Nx.empty Hbad Ht).
Defined.

(** ** Dictionaries *)

Section DictFacts.

Context {K V : Type} `{EqDec K}.

Lemma get_set (k k' : K) (v : V) (d : Dict.dict K V) :
  Dict.get k' (Dict.set k v d) = if eq_dec k' k then Some v else Dict.get k' d.
Proof.
  induction d as [| [k0 v0] d IH]; simpl.
  - destruct (eq_dec k' k); reflexivity.
  - destruct (eq_dec k k0) as [-> | Hk]; simpl.
    + destruct (eq_dec k' k0); reflexivity.
    + destruct (eq_dec k' k0) as [-> | Hk'].
      * destruct (eq_dec k0 k); [congruence | reflexivity].
      * exact IH.
Qed.

Lemma get_app (k : K) (d1 d2 : Dict.dict K V) :
  Dict.get k (d1 ++ d2)
  = match Dict.get k d1 with Some v => Some v | None => Dict.get k d2 end.
Proof.
  induction d1 as [| [k0 v0] d1 IH]; simpl; [reflexivity |].
  destruct (eq_dec k k0); [reflexivity | exact IH].
Qed.

Lemma get_In (k : K) (v : V) (d : Dict.dict K V) :
  Dict.get k d = Some v -> In (k, v) d.
Proof.
  induction d as [| [k0 v0] d IH]; simpl; [discriminate |].
  destruct (eq_dec k k0) as [-> | Hk]; intros Hget.
  - left. congruence.
  - right. exact (IH Hget).
Qed.

Lemma get_None_keys (k : K) (d : Dict.dict K V) :
  Dict.get k d = None <-> ~ In k (Dict.keys d).
Proof.
  induction d as [| [k0 v0] d IH]; simpl.
  - tauto.
  - destruct (eq_dec k k0) as [-> | Hk].
    + split; [discriminate | intros Hn; exfalso; apply Hn; left; reflexivity].
    + rewrite IH. split.
      * intros Hn [Heq | Hin]; [congruence | exact (Hn Hin)].
      * intros Hn Hin. apply Hn. right. exact Hin.
Qed.

Lemma mem_set (k k' : K) (v : V) (d : Dict.dict K V) :
  Dict.mem k' d = true -> Dict.mem k' (Dict.set k v d) = true.
Proof.
  unfold Dict.mem. rewrite get_set.
  destruct (eq_dec k' k); [reflexivity | tauto].
Qed.

Lemma mem_set_same (k : K) (v : V) (d : Dict.dict K V) :
  Dict.mem k (Dict.set k v d) = true.
Proof.
  unfold Dict.mem. rewrite get_set.
  destruct (eq_dec k k); [reflexivity | congruence].
Qed.

Lemma keys_set (k : K) (v : V) (d : Dict.dict K V) :
  Dict.keys (Dict.set k v d)
  = if Dict.mem k d then Dict.keys d else Dict.keys d ++ [k].
Proof.
  unfold Dict.mem.
  induction d as [| [k0 v0] d IH]; simpl; [reflexivity |].
  destruct (eq_dec k k0) as [-> | Hk]; simpl; [reflexivity |].
  rewrite IH. destruct (Dict.get k d); reflexivity.
Qed.

Lemma NoDup_keys_set (k : K) (v : V) (d : Dict.dict K V) :
  NoDup (Dict.keys d) -> NoDup (Dict.keys (Dict.set k v d)).
Proof.
  intros Hnd. rewrite keys_set. unfold Dict.mem.
  destruct (Dict.get k d) eqn:Hget; [exact Hnd |].
  apply get_None_keys in Hget.
  apply NoDup_rev in Hnd. rewrite <- (rev_involutive (Dict.keys d ++ [k])).
  apply NoDup_rev. rewrite rev_app_distr. simpl.
  constructor; [| exact Hnd].
  intros Hin. apply Hget. apply in_rev. exact Hin.
Qed.

End DictFacts.

(** ** Graph operations *)

Section GraphFacts.

Context {Id : Type} `{EqDec Id}.

Lemma edge_weight_touch (G : Nx.DiGraph Id) (n u v : Id) :
  Nx.edge_weight (Nx.touch G n) u v = Nx.edge_weight G u v.
Proof.
  unfold Nx.touch, Dict.mem.
  destruct (Dict.get n (Nx.adj G)) eqn:Hn; [reflexivity |].
  unfold Nx.edge_weight. simpl. rewrite get_set.
  destruct (eq_dec u n) as [-> | Hu]; [| reflexivity].
  rewrite Hn. reflexivity.
Qed.

Lemma edge_weight_add_edge (G : Nx.DiGraph Id) (u v : Id) (w : npfloat) (u' v' : Id) :
  Nx.edge_weight (Nx.add_edge G u v w) u' v'
  = if eq_dec u' u
    then if eq_dec v' v then Some w else Nx.edge_weight G u' v'
    else Nx.edge_weight G u' v'.
Proof.
  unfold Nx.add_edge.
  set (G1 := Nx.touch (Nx.touch G u) v).
  assert (HG1 : forall a b, Nx.edge_weight G1 a b = Nx.edge_weight G a b).
  { intros a b. unfold G1. rewrite !edge_weight_touch. reflexivity. }
  unfold Nx.edge_weight at 1. simpl. rewrite get_set.
  destruct (eq_dec u' u) as [-> | Hu].
  - rewrite get_set. destruct (eq_dec v' v); [reflexivity |].
    rewrite <- HG1. unfold Nx.edge_weight.
    destruct (Dict.get u (Nx.adj G1)); reflexivity.
  - rewrite <- HG1. reflexivity.
Qed.

Lemma edge_weight_add_node (G : Nx.DiGraph Id) (n : Id) (a : Nx.node_attrs) (u v : Id) :
  Nx.edge_weight G u v = None ->
  Nx.edge_weight (Nx.add_node G n a) u v = None.
Proof.
  intros Hnone. unfold Nx.add_node.
  destruct (Dict.mem n (Nx.node G)); [exact Hnone |].
  unfold Nx.edge_weight in *. simpl. rewrite get_set.
  destruct (eq_dec u n); [reflexivity | exact Hnone].
Qed.

Lemma add_nodes_no_edge (patches_df : rows) (G : Nx.DiGraph Id) (u v : Id) :
  Nx.edge_weight G u v = None ->
  Nx.edge_weight (add_nodes patches_df G) u v = None.
Proof.
  revert G. unfold add_nodes.
  induction patches_df as [| row rest IH]; intros G Hnone; simpl; [exact Hnone |].
  apply IH. apply edge_weight_add_node. exact Hnone.
Qed.

Lemma nested_loops_list_prod (d t : npfloat) (outer inner : rows) :
  forall G : Nx.DiGraph Id,
    fold_left
      (fun G source =>
         fold_left (fun G target => visit_pair d t source target G) inner G)
      outer G
    = fold_left (visit d t) (list_prod outer inner) G.
Proof.
  induction outer as [| source rest IH]; intros G; simpl; [reflexivity |].
  rewrite fold_left_app, IH. f_equal.
  clear IH. revert G.
  induction inner as [| target inner IHi]; intros G; simpl; [reflexivity |].
  apply IHi.
Qed.

(** The nested loops visit the pairs of rows in the order of [list_prod]. *)
Lemma add_edges_list_prod (d t : npfloat) (patches_df : rows) (G : Nx.DiGraph Id) :
  add_edges d t patches_df G
  = fold_left (visit d t) (list_prod patches_df patches_df) G.
Proof. apply nested_loops_list_prod. Qed.

Section Pairs.

Variables d t : npfloat.

Lemma edge_weight_visit (G : Nx.DiGraph Id) (st : (Id * patch) * (Id * patch))
    (u v : Id) (w : npfloat) :
  Nx.edge_weight (visit d t G st) u v = Some w ->
  Nx.edge_weight G u v = Some w
  \/ (fires d t u v st /\ w = calculate_edge_weight (snd (fst st)) (snd (snd st)) d).
Proof.
  unfold visit, visit_pair, fires.
  destruct (eq_dec (fst (fst st)) (fst (snd st))) as [Heq | Hne]; [tauto |].
  destruct (gt _ t) eqn:Hgt; [| tauto].
  rewrite edge_weight_add_edge.
  destruct (eq_dec u (fst (fst st))) as [-> | Hu]; [| tauto].
  destruct (eq_dec v (fst (snd st))) as [-> | Hv]; [| tauto].
  intros Hw. right. inversion Hw; subst. tauto.
Qed.

Lemma has_edge_visit_keeps (G : Nx.DiGraph Id) (st : (Id * patch) * (Id * patch))
    (u v : Id) :
  Nx.has_edge G u v = true -> Nx.has_edge (visit d t G st) u v = true.
Proof.
  unfold visit, visit_pair.
  destruct (eq_dec (fst (fst st)) (fst (snd st))); [tauto |].
  destruct (gt _ t); [| tauto].
  unfold Nx.has_edge. rewrite edge_weight_add_edge.
  destruct (eq_dec u (fst (fst st))); [| tauto].
  destruct (eq_dec v (fst (snd st))); [reflexivity | tauto].
Qed.

Lemma has_edge_visit_fires (G : Nx.DiGraph Id) (st : (Id * patch) * (Id * patch))
    (u v : Id) :
  fires d t u v st -> Nx.has_edge (visit d t G st) u v = true.
Proof.
  unfold fires, visit, visit_pair. intros (Hu & Hv & Hne & Hgt).
  destruct (eq_dec (fst (fst st)) (fst (snd st))); [congruence |].
  rewrite Hgt. unfold Nx.has_edge. rewrite edge_weight_add_edge.
  destruct (eq_dec u (fst (fst st))); [| congruence].
  destruct (eq_dec v (fst (snd st))); [reflexivity | congruence].
Qed.

(** Every edge of the graph after the loops was there before or was put by
    one of the visited pairs, with the weight computed for that pair. *)
Lemma fold_visit_sound (L : list ((Id * patch) * (Id * patch))) :
  forall (G : Nx.DiGraph Id) (u v : Id) (w : npfloat),
    Nx.edge_weight (fold_left (visit d t) L G) u v = Some w ->
    Nx.edge_weight G u v = Some w
    \/ exists st, In st L /\ fires d t u v st
                  /\ w = calculate_edge_weight (snd (fst st)) (snd (snd st)) d.
Proof.
  induction L as [| st L IH]; intros G u v w Hw; simpl in Hw; [tauto |].
  destruct (IH _ _ _ _ Hw) as [Hprev | (st' & Hin & Hf & Heq)].
  - destruct (edge_weight_visit _ _ _ _ _ Hprev) as [HG | [Hf Heq]]; [tauto |].
    right. exists st. simpl. tauto.
  - right. exists st'. simpl. tauto.
Qed.

(** An edge present before the loops, or put by a visited pair, is present
    after them. *)
Lemma fold_visit_complete (L : list ((Id * patch) * (Id * patch))) :
  forall (G : Nx.DiGraph Id) (u v : Id),
    Nx.has_edge G u v = true \/ (exists st, In st L /\ fires d t u v st) ->
    Nx.has_edge (fold_left (visit d t) L G) u v = true.
Proof.
  induction L as [| st L IH]; intros G u v Hcase; simpl.
  - destruct Hcase as [HG | (st & [] & _)]. exact HG.
  - apply IH. destruct Hcase as [HG | (st' & [<- | Hin] & Hf)].
    + left. apply has_edge_visit_keeps. exact HG.
    + left. apply has_edge_visit_fires. exact Hf.
    + right. exists st'. tauto.
Qed.

End Pairs.

Lemma build_graph_edge_sound (patches_df : rows) (d t : npfloat) (u v : Id) (w : npfloat) :
  Nx.edge_weight (build_graph patches_df d t) u v = Some w ->
  exists st, In st (list_prod patches_df patches_df) /\ fires d t u v st
             /\ w = calculate_edge_weight (snd (fst st)) (snd (snd st)) d.
Proof.
  unfold build_graph. rewrite add_edges_list_prod. intros Hw.
  destruct (fold_visit_sound d t _ _ _ _ _ Hw) as [Hnodes | Hst]; [| exact Hst].
  rewrite add_nodes_no_edge in Hnodes by reflexivity. discriminate.
Qed.

Lemma NoDup_fst_functional (patches_df : rows) (i : Id) (p p' : patch) :
  NoDup (map fst patches_df) -> In (i, p) patches_df -> In (i, p') patches_df -> p = p'.
Proof.
  induction patches_df as [| [j q] rest IH]; simpl; intros Hnd Hp Hp'; [tauto |].
  inversion Hnd as [| ? ? Hnotin Hnd']; subst.
  destruct Hp as [Hp | Hp], Hp' as [Hp' | Hp'].
  - congruence.
  - inversion Hp; subst. exfalso. apply Hnotin.
    change i with (fst (i, p')). apply in_map. exact Hp'.
  - inversion Hp'; subst. exfalso. apply Hnotin.
    change i with (fst (i, p)). apply in_map. exact Hp.
  - exact (IH Hnd' Hp Hp').
Qed.

End GraphFacts.

(** ** The constructed graph *)

Section BuildFacts.

Context {Id : Type} `{EqDec Id}.

Lemma mem_set_inv {V : Type} (k k' : Id) (v : V) (d : Dict.dict Id V) :
  Dict.mem k' (Dict.set k v d) = true -> k' = k \/ Dict.mem k' d = true.
Proof.
  unfold Dict.mem. rewrite get_set.
  destruct (eq_dec k' k); [left; assumption | right; assumption].
Qed.

Lemma adj_mem_touch (G : Nx.DiGraph Id) (n i : Id) :
  Dict.mem i (Nx.adj G) = true -> Dict.mem i (Nx.adj (Nx.touch G n)) = true.
Proof.
  unfold Nx.touch. destruct (Dict.mem n (Nx.adj G)); [tauto |].
  simpl. apply mem_set.
Qed.

Lemma adj_mem_add_edge (G : Nx.DiGraph Id) (u v : Id) (w : npfloat) (i : Id) :
  Dict.mem i (Nx.adj G) = true -> Dict.mem i (Nx.adj (Nx.add_edge G u v w)) = true.
Proof.
  intros Hi. unfold Nx.add_edge. simpl. apply mem_set.
  apply adj_mem_touch, adj_mem_touch. exact Hi.
Qed.

Lemma node_add_edge (G : Nx.DiGraph Id) (u v : Id) (w : npfloat) :
  Dict.mem u (Nx.adj G) = true -> Dict.mem v (Nx.adj G) = true ->
  Nx.node (Nx.add_edge G u v w) = Nx.node G.
Proof.
  intros Hu Hv. unfold Nx.add_edge. simpl.
  unfold Nx.touch at 2. rewrite Hu.
  unfold Nx.touch. rewrite Hv. reflexivity.
Qed.

Lemma adj_mem_visit (d t : npfloat) (G : Nx.DiGraph Id)
    (st : (Id * patch) * (Id * patch)) (i : Id) :
  Dict.mem i (Nx.adj G) = true -> Dict.mem i (Nx.adj (visit d t G st)) = true.
Proof.
  unfold visit, visit_pair.
  destruct (eq_dec _ _); [tauto |]. destruct (gt _ _); [| tauto].
  apply adj_mem_add_edge.
Qed.

Lemma node_visit (d t : npfloat) (G : Nx.DiGraph Id) (st : (Id * patch) * (Id * patch)) :
  Dict.mem (fst (fst st)) (Nx.adj G) = true ->
  Dict.mem (fst (snd st)) (Nx.adj G) = true ->
  Nx.node (visit d t G st) = Nx.node G.
Proof.
  intros Hu Hv. unfold visit, visit_pair.
  destruct (eq_dec _ _); [reflexivity |]. destruct (gt _ _); [| reflexivity].
  apply node_add_edge; assumption.
Qed.

(** The edge loops leave the node dictionary alone when every visited
    identifier already is a node. *)
Lemma node_fold_visit (d t : npfloat) (L : list ((Id * patch) * (Id * patch))) :
  forall G : Nx.DiGraph Id,
    (forall st, In st L ->
                Dict.mem (fst (fst st)) (Nx.adj G) = true
                /\ Dict.mem (fst (snd st)) (Nx.adj G) = true) ->
    Nx.node (fold_left (visit d t) L G) = Nx.node G.
Proof.
  induction L as [| st L IH]; intros G Hmem; simpl; [reflexivity |].
  destruct (Hmem st (or_introl eq_refl)) as [Hu Hv].
  rewrite IH.
  - apply node_visit; assumption.
  - intros st' Hin. destruct (Hmem st' (or_intror Hin)) as [Hu' Hv'].
    split; apply adj_mem_visit; assumption.
Qed.

Lemma add_node_covers (G : Nx.DiGraph Id) (n : Id) (a : Nx.node_attrs) :
  Nx.adjacency_covers_nodes G ->
  Nx.adjacency_covers_nodes (Nx.add_node G n a)
  /\ Dict.mem n (Nx.adj (Nx.add_node G n a)) = true
  /\ (forall i, Dict.mem i (Nx.adj G) = true ->
                Dict.mem i (Nx.adj (Nx.add_node G n a)) = true).
Proof.
  intros Hcov. unfold Nx.add_node.
  destruct (Dict.mem n (Nx.node G)) eqn:Hn; simpl.
  - repeat split.
    + intros m Hm. simpl in Hm. apply mem_set_inv in Hm.
      destruct Hm as [-> | Hm]; apply Hcov; assumption.
    + apply Hcov. exact Hn.
    + tauto.
  - repeat split.
    + intros m Hm. simpl in *. apply mem_set_inv in Hm.
      destruct Hm as [-> | Hm]; [apply mem_set_same | apply mem_set, Hcov, Hm].
    + apply mem_set_same.
    + intros i Hi. apply mem_set. exact Hi.
Qed.

Lemma add_nodes_adj_mem (patches_df : rows) :
  forall (G : Nx.DiGraph Id) (i : Id),
    Nx.adjacency_covers_nodes G ->
    In i (map fst patches_df) \/ Dict.mem i (Nx.adj G) = true ->
    Dict.mem i (Nx.adj (add_nodes patches_df G)) = true.
Proof.
  unfold add_nodes.
  induction patches_df as [| row rest IH]; intros G i Hcov Hi; simpl.
  - destruct Hi as [[] | Hi]. exact Hi.
  - destruct (add_node_covers G (fst row) (attrs_of (snd row)) Hcov)
      as (Hcov' & Hnew & Hold).
    apply IH; [exact Hcov' |].
    destruct Hi as [[<- | Hi] | Hi]; [right; exact Hnew | left; exact Hi |].
    right. apply Hold. exact Hi.
Qed.

Lemma node_add_node (G : Nx.DiGraph Id) (n : Id) (a : Nx.node_attrs) :
  Nx.node (Nx.add_node G n a) = Dict.set n (Some a) (Nx.node G).
Proof. unfold Nx.add_node. destruct (Dict.mem n (Nx.node G)); reflexivity. Qed.

Lemma add_nodes_get (patches_df : rows) :
  forall (G : Nx.DiGraph Id) (i : Id),
    Dict.get i (Nx.node (add_nodes patches_df G))
    = match last_row i patches_df with
      | Some p => Some (Some (attrs_of p))
      | None => Dict.get i (Nx.node G)
      end.
Proof.
  unfold add_nodes, last_row.
  induction patches_df as [| [j p] rest IH]; intros G i; simpl; [reflexivity |].
  rewrite IH, get_app, node_add_node, get_set. simpl.
  destruct (Dict.get i (rev rest)); [reflexivity |].
  destruct (eq_dec i j); reflexivity.
Qed.

Lemma add_nodes_NoDup (patches_df : rows) :
  forall G : Nx.DiGraph Id,
    NoDup (Dict.keys (Nx.node G)) ->
    NoDup (Dict.keys (Nx.node (add_nodes patches_df G))).
Proof.
  unfold add_nodes.
  induction patches_df as [| row rest IH]; intros G Hnd; simpl; [exact Hnd |].
  apply IH. rewrite node_add_node. apply NoDup_keys_set. exact Hnd.
Qed.

(** The node dictionary of the constructed graph is the one the first loop
    built. *)
Lemma build_graph_node (patches_df : rows) (d t : npfloat) :
  Nx.node (build_graph patches_df d t) = Nx.node (add_nodes patches_df Nx.empty).
Proof.
  unfold build_graph. rewrite add_edges_list_prod.
  apply node_fold_visit. intros [s s'] Hin. simpl.
  apply in_prod_iff in Hin. destruct Hin as [Hs Hs'].
  split; (apply add_nodes_adj_mem; [intros n; discriminate | left]);
    apply in_map; assumption.
Qed.

End BuildFacts.

Section EdgeList.

Context {Id : Type} `{EqDec Id}.

Lemma NoDup_adj_touch (G : Nx.DiGraph Id) (n : Id) :
  NoDup (Dict.keys (Nx.adj G)) -> NoDup (Dict.keys (Nx.adj (Nx.touch G n))).
Proof.
  unfold Nx.touch. destruct (Dict.mem n (Nx.adj G)); [tauto |].
  simpl. apply NoDup_keys_set.
Qed.

Lemma NoDup_adj_add_edge (G : Nx.DiGraph Id) (u v : Id) (w : npfloat) :
  NoDup (Dict.keys (Nx.adj G)) -> NoDup (Dict.keys (Nx.adj (Nx.add_edge G u v w))).
Proof.
  intros Hnd. unfold Nx.add_edge. simpl.
  apply NoDup_keys_set, NoDup_adj_touch, NoDup_adj_touch. exact Hnd.
Qed.

Lemma NoDup_adj_add_node (G : Nx.DiGraph Id) (n : Id) (a : Nx.node_attrs) :
  NoDup (Dict.keys (Nx.adj G)) -> NoDup (Dict.keys (Nx.adj (Nx.add_node G n a))).
Proof.
  unfold Nx.add_node. destruct (Dict.mem n (Nx.node G)); simpl; [tauto |].
  apply NoDup_keys_set.
Qed.

Lemma NoDup_adj_add_nodes (patches_df : rows) :
  forall G : Nx.DiGraph Id,
    NoDup (Dict.keys (Nx.adj G)) ->
    NoDup (Dict.keys (Nx.adj (add_nodes patches_df G))).
Proof.
  unfold add_nodes.
  induction patches_df as [| row rest IH]; intros G Hnd; simpl; [exact Hnd |].
  apply IH. apply NoDup_adj_add_node. exact Hnd.
Qed.

Lemma NoDup_adj_fold_visit (d t : npfloat) (L : list ((Id * patch) * (Id * patch))) :
  forall G : Nx.DiGraph Id,
    NoDup (Dict.keys (Nx.adj G)) ->
    NoDup (Dict.keys (Nx.adj (fold_left (visit d t) L G))).
Proof.
  induction L as [| st L IH]; intros G Hnd; simpl; [exact Hnd |].
  apply IH. unfold visit, visit_pair.
  destruct (eq_dec _ _); [exact Hnd |]. destruct (gt _ _); [| exact Hnd].
  apply NoDup_adj_add_edge. exact Hnd.
Qed.

Lemma NoDup_adj_build_graph (patches_df : rows) (d t : npfloat) :
  NoDup (Dict.keys (Nx.adj (build_graph patches_df d t))).
Proof.
  unfold build_graph. rewrite add_edges_list_prod.
  apply NoDup_adj_fold_visit, NoDup_adj_add_nodes. constructor.
Qed.

Lemma In_NoDup_get {V : Type} (k : Id) (v : V) (d : Dict.dict Id V) :
  NoDup (Dict.keys d) -> In (k, v) d -> Dict.get k d = Some v.
Proof.
  induction d as [| [k0 v0] d IH]; simpl; intros Hnd Hin; [tauto |].
  inversion Hnd as [| ? ? Hnotin Hnd']; subst.
  destruct Hin as [Heq | Hin].
  - inversion Heq; subst. destruct (eq_dec k k); [reflexivity | congruence].
  - destruct (eq_dec k k0) as [-> | Hk]; [| exact (IH Hnd' Hin)].
    exfalso. apply Hnotin. change k0 with (fst (k0, v)). apply in_map. exact Hin.
Qed.

(** An element of the edge list is an edge of the graph. *)
Lemma In_edges_has_edge (G : Nx.DiGraph Id) (u v : Id) (w : npfloat) :
  NoDup (Dict.keys (Nx.adj G)) ->
  In (u, v, w) (Nx.edges G) -> Nx.has_edge G u v = true.
Proof.
  intros Hnd Hin. unfold Nx.edges in Hin.
  apply in_flat_map in Hin. destruct Hin as ([u' succ] & Hadj & Hin).
  apply in_map_iff in Hin. destruct Hin as ([v' w'] & Heq & Hsucc).
  inversion Heq; subst.
  unfold Nx.has_edge, Nx.edge_weight.
  rewrite (In_NoDup_get _ _ _ Hnd Hadj).
  destruct (Dict.get v succ) eqn:Hget; [reflexivity |].
  apply get_None_keys in Hget. exfalso. apply Hget.
  change v with (fst (v, w)). apply in_map. exact Hsucc.
Qed.

End EdgeList.

Lemma gt_irrefl (a : npfloat) : gt a a = false.
Proof. destruct a; try reflexivity. apply Rltb_irrefl. Qed.

(** C4.  The constructed graph has no self-loop, whatever the rows, the
    dispersal distance and the threshold: [has_edge(u, u)] is false for every
    [u], and no element of the edge list has equal endpoints. *)
Theorem build_graph_no_self_loop {Id : Type} `{EqDec Id}
    (patches_df : rows) (dispersal_dist weight_threshold : npfloat) :
  (forall u : Id,
     Nx.has_edge (build_graph patches_df dispersal_dist weight_threshold) u u = false)
  /\ Forall (fun e : Id * Id * npfloat => fst (fst e) <> snd (fst e))
            (Nx.edges (build_graph patches_df dispersal_dist weight_threshold)).
Proof.
  assert (Hloop : forall u : Id,
    Nx.has_edge (build_graph patches_df dispersal_dist weight_threshold) u u = false).
  { intros u. unfold Nx.has_edge.
    destruct (Nx.edge_weight _ u u) as [w |] eqn:Hw; [| reflexivity].
    apply build_graph_edge_sound in Hw.
    destruct Hw as (st & _ & (_ & _ & Hne & _) & _). congruence. }
  split; [exact Hloop |].
  apply Forall_forall. intros [[u v] w] Hin Heq. simpl in Heq. subst v.
  apply In_edges_has_edge in Hin; [| apply NoDup_adj_build_graph].
  rewrite Hloop in Hin. discriminate.
Qed.

(** C1.  With unique identifiers, for rows [(u, pu)] and [(v, pv)] of
    distinct patches the constructed graph has the edge from [u] to [v]
    exactly when the weight computed for the pair is strictly greater than
    the threshold; a weight equal to the threshold gives no edge; and the
    edge, when present, carries the computed weight. *)
Theorem build_graph_edge_iff_above_threshold {Id : Type} `{EqDec Id}
    (patches_df : rows) (dispersal_dist weight_threshold : npfloat)
    (u v : Id) (pu pv : patch) :
  NoDup (map fst patches_df) ->
  In (u, pu) patches_df -> In (v, pv) patches_df -> u <> v ->
  let G := build_graph patches_df dispersal_dist weight_threshold in
  let weight := calculate_edge_weight pu pv dispersal_dist in
  (Nx.has_edge G u v = true <-> gt weight weight_threshold = true)
  /\ (weight = weight_threshold -> Nx.has_edge G u v = false)
  /\ (forall w, Nx.edge_weight G u v = Some w -> w = weight).
Proof.
  intros Hnd Hu Hv Hne G weight.
  assert (Hsound : forall w, Nx.edge_weight G u v = Some w ->
                             w = weight /\ gt weight weight_threshold = true).
  { intros w Hw. apply build_graph_edge_sound in Hw.
    destruct Hw as ([[u' pu'] [v' pv']] & Hin & (Hu' & Hv' & _ & Hgt) & Heq).
    simpl in *. subst u' v'.
    apply in_prod_iff in Hin. destruct Hin as [Hinu Hinv].
    rewrite (NoDup_fst_functional _ _ _ _ Hnd Hinu Hu) in *.
    rewrite (NoDup_fst_functional _ _ _ _ Hnd Hinv Hv) in *.
    split; assumption. }
  assert (Hiff : Nx.has_edge G u v = true <-> gt weight weight_threshold = true).
  { split.
    - unfold Nx.has_edge. destruct (Nx.edge_weight G u v) as [w |] eqn:Hw;
        [| discriminate].
      intros _. exact (proj2 (Hsound w eq_refl)).
    - intros Hgt. unfold G, build_graph. rewrite add_edges_list_prod.
      apply fold_visit_complete. right.
      exists ((u, pu), (v, pv)). split.
      + apply in_prod; assumption.
      + unfold fires. simpl. tauto. }
  split; [exact Hiff |]. split.
  - intros Heq. apply not_true_is_false. intros Hedge.
    apply Hiff in Hedge. rewrite Heq, gt_irrefl in Hedge. discriminate.
  - intros w Hw. exact (proj1 (Hsound w Hw)).
Qed.

Lemma build_graph_edge_iff_above_threshold_witness :
  (NoDup (map fst two_patches)
   /\ In (1%Z, real_patch 0 0 1) two_patches
   /\ In (2%Z, real_patch 3 4 1) two_patches
   /\ 1%Z <> 2%Z)
  /\
  let G := build_graph two_patches DISPERSAL_DISTANCE WEIGHT_THRESHOLD in
  let weight :=
    calculate_edge_weight (real_patch 0 0 1) (real_patch 3 4 1) DISPERSAL_DISTANCE in
  (Nx.has_edge G 1%Z 2%Z = true <-> gt weight WEIGHT_THRESHOLD = true)
  /\ (weight = WEIGHT_THRESHOLD -> Nx.has_edge G 1%Z 2%Z = false)
  /\ (forall w, Nx.edge_weight G 1%Z 2%Z = Some w -> w = weight).
Proof.
  assert (Hnd : NoDup (map fst two_patches)).
  { simpl. repeat constructor; simpl; intuition discriminate. }
  assert (H1 : In (1%Z, real_patch 0 0 1) two_patches) by (simpl; auto).
  assert (H2 : In (2%Z, real_patch 3 4 1) two_patches) by (simpl; auto).
  assert (Hne : 1%Z <> 2%Z) by discriminate.
  split; [tauto |].
  exact (build_graph_edge_iff_above_threshold two_patches
           DISPERSAL_DISTANCE WEIGHT_THRESHOLD 1%Z 2%Z
           (real_patch 0 0 1) (real_patch 3 4 1) Hnd H1 H2 Hne).
Defined.

(** C6, as stated, fails: two records with identifier 1 raise no error; the
    graph is built, with the single node 1 carrying the attributes of the
    second record. *)
Lemma duplicate_identifier_accepted :
  build_graph duplicated_patch DISPERSAL_DISTANCE WEIGHT_THRESHOLD
  = Nx.mkDiGraph
      [(1%Z, Some (Nx.mkAttrs (Fin (1 / 2)) (Fin 3, Fin 4)))]
      [(1%Z, [])].
Proof. reflexivity. Qed.

(** C6, amended.  Records sharing an identifier raise no error and
    construction completes: the graph has one node per identifier, and the
    node carries the quality and position of the last record with that
    identifier. *)
Theorem duplicate_identifier_overwrites {Id : Type} `{EqDec Id}
    (patches_df : rows) (dispersal_dist weight_threshold : npfloat) :
  let G := build_graph patches_df dispersal_dist weight_threshold in
  NoDup (Dict.keys (Nx.node G))
  /\ forall i : Id,
       Dict.get i (Nx.node G)
       = option_map (fun p => Some (attrs_of p)) (last_row i patches_df).
Proof.
  intros G. unfold G. rewrite build_graph_node. split.
  - apply add_nodes_NoDup. constructor.
  - intros i. rewrite add_nodes_get.
    destruct (last_row i patches_df); reflexivity.
Qed.

(** ** Sorting *)

Section SortedFacts.

Context {A K : Type}.
Variable key : A -> K.
Variable ltb : K -> K -> bool.

Lemma insert_perm (a : A) (l : list A) : Permutation (a :: l) (insert key ltb a l).
Proof.
  induction l as [| b l IH]; simpl; [apply Permutation_refl |].
  destruct (ltb (key b) (key a)); [| apply Permutation_refl].
  apply perm_trans with (b :: a :: l); [apply perm_swap |].
  apply perm_skip. exact IH.
Qed.

Lemma stable_sort_perm (l : list A) : Permutation l (stable_sort key ltb l).
Proof.
  induction l as [| a l IH]; simpl; [apply perm_nil |].
  apply perm_trans with (a :: stable_sort key ltb l);
    [apply perm_skip; exact IH | apply insert_perm].
Qed.

Lemma sorted_perm (reverse : bool) (l : list A) :
  Permutation l (sorted key ltb reverse l).
Proof.
  unfold sorted. destruct reverse; [| apply stable_sort_perm].
  apply perm_trans with (rev l); [apply Permutation_rev |].
  apply perm_trans with (stable_sort key ltb (rev l));
    [apply stable_sort_perm | apply Permutation_rev].
Qed.

(** Stability.  [p] selects elements no two of which are in the relation
    [<]; the sort then keeps the selected elements in their order. *)
Variable p : A -> bool.
Hypothesis p_ties : forall a b, p a = true -> p b = true -> ltb (key b) (key a) = false.

Lemma filter_insert (a : A) (l : list A) :
  filter p (insert key ltb a l) = filter p (a :: l).
Proof.
  induction l as [| b l IH]; simpl; [reflexivity |].
  destruct (ltb (key b) (key a)) eqn:Hlt; [| reflexivity].
  simpl. rewrite IH. simpl.
  destruct (p a) eqn:Ha; [| reflexivity].
  destruct (p b) eqn:Hb; [| reflexivity].
  rewrite (p_ties a b Ha Hb) in Hlt. discriminate.
Qed.

Lemma filter_stable_sort (l : list A) :
  filter p (stable_sort key ltb l) = filter p l.
Proof.
  induction l as [| a l IH]; simpl; [reflexivity |].
  rewrite filter_insert. simpl. rewrite IH. reflexivity.
Qed.

Lemma filter_sorted (reverse : bool) (l : list A) :
  filter p (sorted key ltb reverse l) = filter p l.
Proof.
  unfold sorted. destruct reverse; [| apply filter_stable_sort].
  rewrite filter_rev, filter_stable_sort, filter_rev. apply rev_involutive.
Qed.

End SortedFacts.

Section RankFacts.

Context {Id : Type}.

Lemma insert_ascending (a : Id * R) (l : list (Id * R)) :
  ascending l -> ascending (insert snd Rltb a l).
Proof.
  unfold ascending.
  induction l as [| b l IH]; intros Hs; simpl.
  - constructor; constructor.
  - inversion Hs as [| ? ? Hl Hb]; subst.
    destruct (Rlt_dec (snd b) (snd a)) as [Hlt | Hge].
    + rewrite (Rltb_true _ _ Hlt). constructor; [exact (IH Hl) |].
      apply (Permutation_Forall (insert_perm snd Rltb a l)).
      constructor; [lra | exact Hb].
    + rewrite (Rltb_false _ _ Hge). constructor; [exact Hs |].
      constructor; [lra |].
      apply (Forall_impl (fun c => snd a <= snd c)) with (2 := Hb).
      intros c Hc. lra.
Qed.

Lemma stable_sort_ascending (l : list (Id * R)) : ascending (stable_sort snd Rltb l).
Proof.
  induction l as [| a l IH]; simpl; [constructor | apply insert_ascending, IH].
Qed.

Lemma rev_ascending (l : list (Id * R)) : ascending l -> descending (rev l).
Proof.
  unfold ascending, descending.
  induction l as [| a l IH]; intros Hs; simpl; [constructor |].
  inversion Hs as [| ? ? Hl Ha]; subst.
  specialize (IH Hl).
  assert (Hsnoc : forall m : list (Id * R),
            StronglySorted (fun u v => snd v <= snd u) m ->
            Forall (fun c => snd a <= snd c) m ->
            StronglySorted (fun u v => snd v <= snd u) (m ++ [a])).
  { induction m as [| c m IHm]; intros Hm Hall; simpl.
    - constructor; constructor.
    - inversion Hm as [| ? ? Hm' Hc]; subst.
      inversion Hall as [| ? ? Hca Hall']; subst.
      constructor; [exact (IHm Hm' Hall') |].
      apply Forall_app. split; [exact Hc |].
      constructor; [exact Hca | constructor]. }
  apply Hsnoc; [exact IH |].
  apply Forall_forall. intros c Hc. apply in_rev in Hc.
  rewrite Forall_forall in Ha. exact (Ha c Hc).
Qed.

End RankFacts.

(** C9, as stated, fails: two patches with the same score, listed by the
    solver as 2 then 1, are printed as 2 then 1; the identifier is not used
    to order them. *)
Lemma ties_keep_solver_order :
  ~ ties_by_identifier (sorted_ranks [(2%Z, 1 / 2); (1%Z, 1 / 2)]).
Proof.
  assert (Hout : sorted_ranks [(2%Z, 1 / 2); (1%Z, 1 / 2)]
                 = [(2%Z, 1 / 2); (1%Z, 1 / 2)]).
  { unfold sorted_ranks, sorted. simpl. rewrite Rltb_irrefl. reflexivity. }
  rewrite Hout. intros Hties.
  specialize (Hties [] 2%Z [] 1%Z [] (1 / 2) eq_refl). lia.
Qed.

(** C9, amended.  The ranked output is a rearrangement of the (identifier,
    score) pairs returned by the solver, sorted by score descending; nodes
    with equal scores keep the relative order they have in the solver's
    result, so the output order is determined by that result. *)
Theorem sorted_ranks_descending_stable {Id : Type} (items : list (Id * R)) :
  Permutation items (sorted_ranks items)
  /\ descending (sorted_ranks items)
  /\ forall s : R, with_score s (sorted_ranks items) = with_score s items.
Proof.
  unfold sorted_ranks. repeat split.
  - apply sorted_perm.
  - unfold sorted. apply rev_ascending, stable_sort_ascending.
  - intros s. unfold with_score. apply filter_sorted.
    intros a b Ha Hb.
    destruct (Req_dec_T (snd a) s) as [Hsa |]; [| discriminate].
    destruct (Req_dec_T (snd b) s) as [Hsb |]; [| discriminate].
    apply Rltb_false. lra.
Qed.

(** ** Finite sums *)

Lemma sumR_ext {A : Type} (f f' : A -> R) (l : list A) :
  (forall a, In a l -> f a = f' a) -> sumR f l = sumR f' l.
Proof.
  induction l as [| a l IH]; intros Heq; simpl; [reflexivity |].
  rewrite (Heq a (or_introl eq_refl)), IH; [reflexivity |].
  intros b Hb. apply Heq. right. exact Hb.
Qed.

Lemma sumR_plus {A : Type} (f f' : A -> R) (l : list A) :
  sumR (fun a => f a + f' a) l = sumR f l + sumR f' l.
Proof. induction l as [| a l IH]; simpl; [lra | rewrite IH; lra]. Qed.

Lemma sumR_scal {A : Type} (c : R) (f : A -> R) (l : list A) :
  sumR (fun a => c * f a) l = c * sumR f l.
Proof. induction l as [| a l IH]; simpl; [lra | rewrite IH; lra]. Qed.

Lemma sumR_const {A : Type} (c : R) (l : list A) :
  sumR (fun _ => c) l = INR (length l) * c.
Proof.
  induction l as [| a l IH]; [simpl; lra |].
  change (length (a :: l)) with (S (length l)). rewrite S_INR.
  simpl. rewrite IH. lra.
Qed.

Lemma sumR_zero {A : Type} (f : A -> R) (l : list A) :
  (forall a, In a l -> f a = 0) -> sumR f l = 0.
Proof.
  intros Hz. rewrite (sumR_ext f (fun _ => 0) l Hz), sumR_const. lra.
Qed.

Lemma sumR_nonneg {A : Type} (f : A -> R) (l : list A) :
  (forall a, In a l -> 0 <= f a) -> 0 <= sumR f l.
Proof.
  induction l as [| a l IH]; intros Hpos; simpl; [lra |].
  assert (0 <= f a) by (apply Hpos; left; reflexivity).
  assert (0 <= sumR f l) by (apply IH; intros b Hb; apply Hpos; right; exact Hb).
  lra.
Qed.

Lemma sumR_swap {A : Type} {B : Type} (f : A -> B -> R) (la : list A) (lb : list B) :
  sumR (fun a => sumR (fun b => f a b) lb) la
  = sumR (fun b => sumR (fun a => f a b) la) lb.
Proof.
  induction la as [| a la IH]; simpl.
  - symmetry. apply sumR_zero. reflexivity.
  - rewrite IH, <- sumR_plus. reflexivity.
Qed.

Lemma sumR_map {A : Type} {B : Type} (h : B -> A) (f : A -> R) (l : list B) :
  sumR f (map h l) = sumR (fun b => f (h b)) l.
Proof. induction l as [| b l IH]; simpl; [reflexivity | rewrite IH; reflexivity]. Qed.

(** A sum with one selected term. *)
Lemma sumR_select {A : Type} `{EqDec A} (a : A) (c : R) (l : list A) :
  NoDup l -> In a l ->
  sumR (fun b => if eq_dec a b then c else 0) l = c.
Proof.
  induction l as [| b l IH]; intros Hnd Hin; simpl; [contradiction |].
  inversion Hnd as [| ? ? Hnotin Hnd']; subst.
  destruct (eq_dec a b) as [<- | Hne].
  - rewrite sumR_zero; [lra |].
    intros b Hb. destruct (eq_dec a b) as [<- | _]; [contradiction | reflexivity].
  - destruct Hin as [Heq | Hin]; [congruence |].
    rewrite (IH Hnd' Hin). lra.
Qed.


(** ** The solver *)

Section SolverFacts.

Context {Id : Type} `{EqDec Id}.

Import PageRankSolver.

Lemma n_pos (g : graph Id) : nodes g <> [] -> 0 < PageRankSolver.n g.
Proof.
  intros Hne. unfold PageRankSolver.n. apply lt_0_INR.
  destruct (nodes g); [congruence | simpl; lia].
Qed.

Lemma out_weight_cases (g : graph Id) (u : Id) :
  (forall e, In e (edges g) -> 0 < wt e) ->
  0 <= out_weight g u
  /\ (dangling g u = true -> out_weight g u = 0)
  /\ (dangling g u = false -> 0 < out_weight g u).
Proof.
  unfold out_weight, dangling.
  induction (edges g) as [| e l IH]; intros Hpos; simpl.
  - repeat split; [lra | discriminate].
  - destruct IH as (IH0 & IH1 & IH2).
    { intros e' He'. apply Hpos. right. exact He'. }
    assert (He : 0 < wt e) by (apply Hpos; left; reflexivity).
    destruct (from u e); simpl.
    + repeat split; [lra | discriminate | intros _; lra].
    + repeat split; [lra | |].
      * intros Hd. rewrite (IH1 Hd). lra.
      * intros Hd. specialize (IH2 Hd). lra.
Qed.

Lemma edge_source_not_dangling (g : graph Id) (e : Id * Id * R) :
  In e (edges g) -> dangling g (src e) = false.
Proof.
  unfold dangling. intros Hin.
  destruct (forallb _ (edges g)) eqn:Hall; [| reflexivity].
  rewrite forallb_forall in Hall. specialize (Hall e Hin).
  unfold from in Hall. destruct (eq_dec (src e) (src e)); [discriminate | congruence].
Qed.

Lemma transitionProb_nonneg (g : graph Id) (e : Id * Id * R) :
  (forall e, In e (edges g) -> 0 < wt e) -> In e (edges g) ->
  0 <= transitionProb g e.
Proof.
  intros Hpos Hin. unfold transitionProb.
  destruct (out_weight_cases g (src e) Hpos) as (_ & _ & Hout).
  specialize (Hout (edge_source_not_dangling g e Hin)).
  specialize (Hpos e Hin).
  apply Rlt_le, Rdiv_lt_0_compat; assumption.
Qed.

Lemma newScore_nonneg (g : graph Id) (d : R) (score : Id -> R) :
  (forall e, In e (edges g) -> 0 < wt e) -> nodes g <> [] -> 0 <= d <= 1 ->
  (forall v, 0 <= score v) ->
  forall v, 0 <= newScore g d score v.
Proof.
  intros Hpos Hne Hd Hs v. unfold newScore.
  pose proof (n_pos g Hne) as Hn.
  assert (H1 : 0 <= (1 - d) / PageRankSolver.n g).
  { apply Rmult_le_pos; [lra | apply Rlt_le, Rinv_0_lt_compat, Hn]. }
  assert (H2 : 0 <= sumR (fun u => if dangling g u then score u / PageRankSolver.n g else 0)
                         (nodes g)).
  { apply sumR_nonneg. intros u _. destruct (dangling g u); [| lra].
    apply Rmult_le_pos; [apply Hs | apply Rlt_le, Rinv_0_lt_compat, Hn]. }
  assert (H3 : 0 <= sumR (fun e => if into v e then score (src e) * transitionProb g e
                                   else 0) (edges g)).
  { apply sumR_nonneg. intros e He. destruct (into v e); [| lra].
    apply Rmult_le_pos; [apply Hs | apply transitionProb_nonneg; assumption]. }
  assert (0 <= d * (sumR (fun u => if dangling g u then score u / PageRankSolver.n g else 0)
                         (nodes g)
                    + sumR (fun e => if into v e then score (src e) * transitionProb g e
                                     else 0) (edges g))).
  { apply Rmult_le_pos; lra. }
  lra.
Qed.

(** Summed over the targets, the incoming terms are one term per edge. *)
Lemma incoming_total (g : graph Id) (c : Id * Id * R -> R) :
  well_formed g ->
  sumR (fun v => sumR (fun e => if into v e then c e else 0) (edges g)) (nodes g)
  = sumR c (edges g).
Proof.
  intros (Hnd & Hends & _). rewrite sumR_swap.
  apply sumR_ext. intros e He.
  rewrite (sumR_ext _ (fun v => if eq_dec (tgt e) v then c e else 0)).
  - apply sumR_select; [exact Hnd | apply Hends, He].
  - intros v _. unfold into. destruct (eq_dec (tgt e) v); reflexivity.
Qed.

(** Summed over the sources, the same terms. *)
Lemma outgoing_total (g : graph Id) (c : Id * Id * R -> R) :
  well_formed g ->
  sumR (fun u => sumR (fun e => if from u e then c e else 0) (edges g)) (nodes g)
  = sumR c (edges g).
Proof.
  intros (Hnd & Hends & _). rewrite sumR_swap.
  apply sumR_ext. intros e He.
  rewrite (sumR_ext _ (fun u => if eq_dec (src e) u then c e else 0)).
  - apply sumR_select; [exact Hnd | apply Hends, He].
  - intros u _. unfold from. destruct (eq_dec (src e) u); reflexivity.
Qed.

(** The mass sent along edges is the mass of the nodes that have one. *)
Lemma flow_total (g : graph Id) (score : Id -> R) :
  well_formed g ->
  sumR (fun e => score (src e) * transitionProb g e) (edges g)
  = sumR (fun u => if dangling g u then 0 else score u) (nodes g).
Proof.
  intros Hwf. rewrite <- (outgoing_total g _ Hwf).
  destruct Hwf as (_ & _ & Hpos).
  apply sumR_ext. intros u _.
  rewrite (sumR_ext _ (fun e => (score u / out_weight g u)
                                * (if from u e then wt e else 0))).
  - rewrite sumR_scal. fold (out_weight g u).
    destruct (out_weight_cases g u Hpos) as (_ & Hdang & Hnot).
    destruct (dangling g u).
    + rewrite (Hdang eq_refl). lra.
    + specialize (Hnot eq_refl). field. lra.
  - intros e _. unfold from, transitionProb.
    destruct (eq_dec (src e) u) as [<- | _]; [| lra].
    unfold Rdiv. ring.
Qed.

(** One update keeps the total score at 1. *)
Lemma newScore_sum (g : graph Id) (d : R) (score : Id -> R) :
  well_formed g -> nodes g <> [] ->
  sumR score (nodes g) = 1 ->
  sumR (newScore g d score) (nodes g) = 1.
Proof.
  intros Hwf Hne Hsum. pose proof (n_pos g Hne) as Hn.
  unfold newScore.
  rewrite sumR_plus, sumR_const, sumR_scal, sumR_plus, sumR_const.
  rewrite (incoming_total g (fun e => score (src e) * transitionProb g e) Hwf).
  rewrite (flow_total g score Hwf).
  fold (PageRankSolver.n g).
  rewrite (sumR_ext (fun u => if dangling g u then score u / PageRankSolver.n g else 0)
                    (fun u => / PageRankSolver.n g * (if dangling g u then score u else 0))).
  2: { intros u _. destruct (dangling g u); [unfold Rdiv; ring | ring]. }
  rewrite sumR_scal.
  assert (Hsplit : sumR (fun u => if dangling g u then score u else 0) (nodes g)
                   + sumR (fun u => if dangling g u then 0 else score u) (nodes g) = 1).
  { rewrite <- sumR_plus, <- Hsum. apply sumR_ext.
    intros u _. destruct (dangling g u); lra. }
  set (D := sumR (fun u => if dangling g u then score u else 0) (nodes g)) in *.
  set (F := sumR (fun u => if dangling g u then 0 else score u) (nodes g)) in *.
  replace F with (1 - D) by lra.
  field. lra.
Qed.

End SolverFacts.

Section IterateFacts.

Context {Id : Type} `{EqDec Id}.

Import PageRankSolver.

Lemma residual_of_nonneg (g : graph Id) (new old : Id -> R) :
  0 <= residual_of g new old.
Proof. unfold residual_of. apply sumR_nonneg. intros v _. apply Rabs_pos. Qed.

Lemma iterateN_invariant (g : graph Id) (d : R) (k : nat) :
  well_formed g -> nodes g <> [] -> 0 <= d <= 1 ->
  (forall v, 0 <= iterateN g d k v) /\ sumR (iterateN g d k) (nodes g) = 1.
Proof.
  intros Hwf Hne Hd. pose proof (n_pos g Hne) as Hn.
  induction k as [| k [IHpos IHsum]]; simpl.
  - unfold initial. split.
    + intros _. apply Rlt_le, Rdiv_lt_0_compat; lra.
    + rewrite sumR_const. fold (PageRankSolver.n g). field. lra.
  - split.
    + apply newScore_nonneg; try assumption. apply Hwf.
    + apply newScore_sum; assumption.
Qed.

(** A distribution is returned only for an iterate that passed the test. *)
Lemma iterate_converged (g : graph Id) (d tol : R) (fuel : nat) :
  forall (j : nat) (last : option R) (scores : list (Id * R)),
    iterate g d tol fuel (iterateN g d j) last = Converged scores ->
    exists k, (j < k <= j + fuel)%nat
              /\ scores = distribution g (iterateN g d k)
              /\ residualN g d k < PageRankSolver.n g * tol.
Proof.
  induction fuel as [| fuel IH]; intros j last scores Hrun; simpl in Hrun;
    [discriminate |].
  destruct (Rltb _ _) eqn:Htest.
  - exists (S j). apply Rltb_iff in Htest. inversion Hrun; subst.
    repeat split; [lia | lia | exact Htest].
  - destruct (IH (S j) _ _ Hrun) as (k & Hk & Hscores & Hres).
    exists k. repeat split; [lia | lia | exact Hscores | exact Hres].
Qed.

(** When no iterate passes the test the failure carries the last residual. *)
Lemma iterate_exhausted (g : graph Id) (d tol : R) (fuel : nat) :
  forall (j : nat) (last : option R),
    (forall k, (j < k <= j + fuel)%nat ->
               ~ residualN g d k < PageRankSolver.n g * tol) ->
    iterate g d tol fuel (iterateN g d j) last
    = ConvergenceFailure
        (match fuel with O => last | S _ => Some (residualN g d (j + fuel)) end).
Proof.
  induction fuel as [| fuel IH]; intros j last Hnot; simpl; [reflexivity |].
  assert (Hstep : Rltb (residual_of g (newScore g d (iterateN g d j)) (iterateN g d j))
                       (PageRankSolver.n g * tol) = false).
  { apply Rltb_false. apply (Hnot (S j)). lia. }
  rewrite Hstep.
  change (newScore g d (iterateN g d j)) with (iterateN g d (S j)).
  rewrite IH.
  - destruct fuel as [| fuel'].
    + replace (j + 1)%nat with (S j) by lia. reflexivity.
    + replace (S j + S fuel')%nat with (j + S (S fuel'))%nat by lia. reflexivity.
  - intros k Hk. apply Hnot. lia.
Qed.

Lemma iterate_first (g : graph Id) (d tol : R) (fuel : nat) (score : Id -> R)
    (last : option R) :
  residual_of g (newScore g d score) score < PageRankSolver.n g * tol ->
  iterate g d tol (S fuel) score last = Converged (distribution g (newScore g d score)).
Proof. intros Hres. simpl. rewrite (Rltb_true _ _ Hres). reflexivity. Qed.

End IterateFacts.

Lemma lone_node_first_residual (d : R) :
  PageRankSolver.residual_of lone_node
    (PageRankSolver.newScore lone_node d (PageRankSolver.initial lone_node))
    (PageRankSolver.initial lone_node) = 0.
Proof.
  unfold PageRankSolver.residual_of, PageRankSolver.newScore, PageRankSolver.initial,
    PageRankSolver.n, PageRankSolver.dangling, lone_node.
  simpl.
  match goal with |- Rabs ?e + 0 = 0 => replace e with 0 by (field; lra) end.
  rewrite Rabs_R0. lra.
Qed.

(** C3.  For a graph of the data model with at least one node and a damping
    factor in (0,1), a distribution returned by the solver gives every node a
    non-negative score, lists the nodes of the graph, and its scores sum to 1
    within [n * tolerance]. *)
Theorem solve_scores_normalized {Id : Type} `{EqDec Id}
    (g : PageRankSolver.graph Id) (dampingFactor tolerance : R)
    (maxIterations : nat) (scores : list (Id * R)) :
  PageRankSolver.well_formed g ->
  PageRankSolver.nodes g <> [] ->
  0 < dampingFactor < 1 ->
  PageRankSolver.solve g dampingFactor tolerance maxIterations
  = PageRankSolver.Converged scores ->
  Forall (fun it => 0 <= snd it) scores
  /\ map fst scores = PageRankSolver.nodes g
  /\ Rabs (sumR snd scores - 1) <= PageRankSolver.n g * tolerance.
Proof.
  intros Hwf Hne Hd Hsolve.
  unfold PageRankSolver.solve in Hsolve.
  destruct (PageRankSolver.nodes g) as [| v0 rest] eqn:Hnodes; [congruence |].
  apply (iterate_converged g dampingFactor tolerance maxIterations 0%nat) in Hsolve.
  destruct Hsolve as (k & _ & -> & Hres).
  assert (Hd' : 0 <= dampingFactor <= 1) by lra.
  rewrite <- Hnodes in Hne.
  destruct (iterateN_invariant g dampingFactor k Hwf Hne Hd') as [Hpos Hsum].
  unfold PageRankSolver.distribution. rewrite <- Hnodes. repeat split.
  - apply Forall_forall. intros it Hin. apply in_map_iff in Hin.
    destruct Hin as (v & <- & _). simpl. apply Hpos.
  - rewrite map_map. simpl. apply map_id.
  - rewrite sumR_map. simpl.
    rewrite (sumR_ext _ (PageRankSolver.iterateN g dampingFactor k)) by reflexivity.
    rewrite Hsum.
    pose proof (residual_of_nonneg g (PageRankSolver.iterateN g dampingFactor k)
                  (PageRankSolver.iterateN g dampingFactor (pred k))) as Hge.
    unfold PageRankSolver.residualN in Hres.
    replace (1 - 1) with 0 by ring. rewrite Rabs_R0. lra.
Qed.

Lemma solve_scores_normalized_witness :
  let scores :=
    PageRankSolver.distribution lone_node
      (PageRankSolver.newScore lone_node DAMPING_FACTOR
         (PageRankSolver.initial lone_node)) in
  (PageRankSolver.well_formed lone_node
   /\ PageRankSolver.nodes lone_node <> []
   /\ 0 < DAMPING_FACTOR < 1
   /\ PageRankSolver.solve lone_node DAMPING_FACTOR (1 / 1000000) 100
      = PageRankSolver.Converged scores)
  /\ Forall (fun it => 0 <= snd it) scores
  /\ map fst scores = PageRankSolver.nodes lone_node
  /\ Rabs (sumR snd scores - 1) <= PageRankSolver.n lone_node * (1 / 1000000).
Proof.
  intros scores.
  assert (Hwf : PageRankSolver.well_formed lone_node).
  { unfold PageRankSolver.well_formed, lone_node. simpl. repeat split.
    - repeat constructor. simpl. tauto.
    - contradiction.
    - contradiction.
    - contradiction. }
  assert (Hne : PageRankSolver.nodes lone_node <> []) by discriminate.
  assert (Hd : 0 < DAMPING_FACTOR < 1) by (unfold DAMPING_FACTOR; lra).
  assert (Hsolve : PageRankSolver.solve lone_node DAMPING_FACTOR (1 / 1000000) 100
                   = PageRankSolver.Converged scores).
  { change (PageRankSolver.solve lone_node DAMPING_FACTOR (1 / 1000000) 100)
      with (PageRankSolver.iterate lone_node DAMPING_FACTOR (1 / 1000000) 100
              (PageRankSolver.initial lone_node) None).
    apply (iterate_first lone_node DAMPING_FACTOR (1 / 1000000) 99).
    rewrite lone_node_first_residual.
    unfold PageRankSolver.n, lone_node. simpl. lra. }
  split; [tauto |].
  exact (solve_scores_normalized lone_node DAMPING_FACTOR (1 / 1000000) 100 scores
           Hwf Hne Hd Hsolve).
Defined.

(** C8.  On a graph with at least one node and with at least one iteration
    allowed: when none of the [maxIterations] iterates passes the convergence
    test, the solver reports a convergence failure carrying the residual of
    the last iterate; and a score vector is returned only for an iterate that
    passed the test. *)
Theorem solve_reports_convergence_failure {Id : Type} `{EqDec Id}
    (g : PageRankSolver.graph Id) (dampingFactor tolerance : R) (maxIterations : nat) :
  PageRankSolver.nodes g <> [] ->
  (1 <= maxIterations)%nat ->
  ((forall k, (1 <= k <= maxIterations)%nat ->
              ~ PageRankSolver.residualN g dampingFactor k
                < PageRankSolver.n g * tolerance) ->
   PageRankSolver.solve g dampingFactor tolerance maxIterations
   = PageRankSolver.ConvergenceFailure
       (Some (PageRankSolver.residualN g dampingFactor maxIterations)))
  /\
  (forall scores,
     PageRankSolver.solve g dampingFactor tolerance maxIterations
     = PageRankSolver.Converged scores ->
     exists k, (1 <= k <= maxIterations)%nat
               /\ scores = PageRankSolver.distribution g
                             (PageRankSolver.iterateN g dampingFactor k)
               /\ PageRankSolver.residualN g dampingFactor k
                  < PageRankSolver.n g * tolerance).
Proof.
  intros Hne Hmax.
  assert (Hsolve : PageRankSolver.solve g dampingFactor tolerance maxIterations
                   = PageRankSolver.iterate g dampingFactor tolerance maxIterations
                       (PageRankSolver.iterateN g dampingFactor 0) None).
  { unfold PageRankSolver.solve.
    destruct (PageRankSolver.nodes g); [congruence | reflexivity]. }
  rewrite Hsolve. split.
  - intros Hnot. rewrite iterate_exhausted.
    + destruct maxIterations; [lia | reflexivity].
    + intros k Hk. apply Hnot. lia.
  - intros scores Hrun. apply iterate_converged in Hrun.
    destruct Hrun as (k & Hk & Hscores & Hres).
    exists k. repeat split; [lia | lia | exact Hscores | exact Hres].
Qed.

Lemma solve_reports_convergence_failure_witness :
  (PageRankSolver.nodes lone_node <> []
   /\ (1 <= 1)%nat
   /\ (forall k, (1 <= k <= 1)%nat ->
                 ~ PageRankSolver.residualN lone_node DAMPING_FACTOR k
                   < PageRankSolver.n lone_node * 0))
  /\ PageRankSolver.solve lone_node DAMPING_FACTOR 0 1
     = PageRankSolver.ConvergenceFailure
         (Some (PageRankSolver.residualN lone_node DAMPING_FACTOR 1)).
Proof.
  assert (Hne : PageRankSolver.nodes lone_node <> []) by discriminate.
  assert (Hmax : (1 <= 1)%nat) by lia.
  assert (Hnot : forall k, (1 <= k <= 1)%nat ->
                           ~ PageRankSolver.residualN lone_node DAMPING_FACTOR k
                             < PageRankSolver.n lone_node * 0).
  { intros k _ Hlt. unfold PageRankSolver.residualN in Hlt.
    pose proof (residual_of_nonneg lone_node
                  (PageRankSolver.iterateN lone_node DAMPING_FACTOR k)
                  (PageRankSolver.iterateN lone_node DAMPING_FACTOR (pred k))) as Hge.
    lra. }
  split; [tauto |].
  exact (proj1 (solve_reports_convergence_failure lone_node DAMPING_FACTOR 0 1 Hne Hmax)
               Hnot).
Defined.

(** * Further properties of the script *)

(** ** The edge weight on real patches *)

Lemma distance_factor_bounds (s d : R) :
  0 <= s -> 0 < d -> 0 < exp (- s / d) <= 1.
Proof.
  intros Hs Hd. split; [apply exp_pos |].
  assert (Hx : - s / d <= 0).
  { unfold Rdiv. assert (0 < / d) by (apply Rinv_0_lt_compat; exact Hd). nra. }
  destruct Hx as [Hneg | Hzero].
  - rewrite <- exp_0. apply Rlt_le, exp_increasing. exact Hneg.
  - rewrite Hzero, exp_0. lra.
Qed.

(** With both qualities between 0 and 1 the weight is a finite float between
    0 and 1, as the docstring of [calculate_edge_weight] says. *)
Theorem calculate_edge_weight_unit_range (xa ya qa xb yb qb d : R) :
  0 <= qa <= 1 -> 0 <= qb <= 1 -> 0 < d ->
  exists w,
    calculate_edge_weight (real_patch xa ya qa) (real_patch xb yb qb) (Fin d) = Fin w
    /\ 0 <= w <= 1.
Proof.
  intros Hqa Hqb Hd.
  exists (weight_formula xa ya qa xb yb qb d).
  split; [apply calculate_edge_weight_real; nra |].
  unfold weight_formula.
  pose proof (distance_factor_bounds
                (sqrt ((xa - xb) * (xa - xb) + (ya - yb) * (ya - yb))) d
                (sqrt_pos _) Hd) as [Hpos Hle].
  pose proof (sqrt_pos (qa * qb)) as Hq.
  assert (Hs1 : sqrt (qa * qb) <= 1).
  { rewrite <- sqrt_1. apply sqrt_le_1_alt. nra. }
  nra.
Qed.

Lemma calculate_edge_weight_unit_range_witness :
  (0 <= 1 / 2 <= 1 /\ 0 <= 1 <= 1 /\ 0 < 15)
  /\ exists w,
       calculate_edge_weight (real_patch 0 0 (1 / 2)) (real_patch 3 4 1) (Fin 15) = Fin w
       /\ 0 <= w <= 1.
Proof.
  split; [lra |].
  apply (calculate_edge_weight_unit_range 0 0 (1 / 2) 3 4 1 15); lra.
Defined.

(** Two patches at the same place: the distance factor is exactly 1 and the
    weight is the quality factor [np.sqrt(q1 * q2)] as the script computes
    it, whatever the dispersal distance. *)
Theorem calculate_edge_weight_coincident_is_quality_factor (px py qa qb d : R) :
  0 < d ->
  calculate_edge_weight (real_patch px py qa) (real_patch px py qb) (Fin d)
  = np_sqrt (mul (Fin qa) (Fin qb)).
Proof.
  intros Hd. unfold calculate_edge_weight, real_patch. cbn [x y quality].
  rewrite (coincident_distance_factor px py d Hd).
  apply mul_one_l.
Qed.

Lemma calculate_edge_weight_coincident_is_quality_factor_witness :
  0 < 15
  /\ calculate_edge_weight (real_patch 1 2 4) (real_patch 1 2 9) (Fin 15)
     = np_sqrt (mul (Fin 4) (Fin 9)).
Proof.
  split; [lra |].
  apply (calculate_edge_weight_coincident_is_quality_factor 1 2 4 9 15). lra.
Defined.

(** ** Edges of the constructed graph *)

Lemma mul_zero_or_NaN (a b : npfloat) (t : R) :
  b = Fin 0 \/ b = NaN -> 0 <= t -> gt (mul a b) (Fin t) = false.
Proof.
  intros [-> | ->] Ht; [| rewrite mul_NaN_r; reflexivity].
  destruct a; simpl; unfold signed_inf; rewrite ?Rltb_irrefl; try reflexivity.
  apply Rltb_false. lra.
Qed.

Lemma sqrt_zero_quality (c : npfloat) :
  np_sqrt (mul (Fin 0) c) = Fin 0 \/ np_sqrt (mul (Fin 0) c) = NaN.
Proof.
  destruct c; simpl; unfold signed_inf; rewrite ?Rltb_irrefl; simpl; auto.
  left. rewrite Rltb_false by lra. f_equal.
  replace (0 * r) with 0 by ring. apply sqrt_0.
Qed.

(** A patch of quality 0 never has a weight above a non-negative threshold. *)
Lemma zero_quality_below_threshold (p p' : patch) (d : npfloat) (t : R) :
  quality p = Fin 0 -> 0 <= t ->
  gt (calculate_edge_weight p p' d) (Fin t) = false
  /\ gt (calculate_edge_weight p' p d) (Fin t) = false.
Proof.
  intros Hq Ht.
  assert (Hout : gt (calculate_edge_weight p p' d) (Fin t) = false).
  { unfold calculate_edge_weight. rewrite Hq.
    apply mul_zero_or_NaN; [apply sqrt_zero_quality | exact Ht]. }
  split; [exact Hout |].
  rewrite calculate_edge_weight_swap. exact Hout.
Qed.

Lemma gt_threshold_lower (w : npfloat) (t t' : R) :
  t <= t' -> gt w (Fin t') = true -> gt w (Fin t) = true.
Proof.
  intros Hle. destruct w; simpl; try tauto.
  intros Hgt. apply Rltb_iff in Hgt. apply Rltb_true. lra.
Qed.

Lemma gt_weight_higher (w w' : R) (t : npfloat) :
  w <= w' -> gt (Fin w) t = true -> gt (Fin w') t = true.
Proof.
  intros Hle. destruct t; simpl; try tauto.
  intros Hgt. apply Rltb_iff in Hgt. apply Rltb_true. lra.
Qed.

Lemma weight_formula_dispersal_le (xa ya qa xb yb qb d d' : R) :
  0 < d -> d <= d' ->
  weight_formula xa ya qa xb yb qb d <= weight_formula xa ya qa xb yb qb d'.
Proof.
  intros Hd Hdd. unfold weight_formula.
  apply Rmult_le_compat_r; [apply sqrt_pos |].
  set (s := sqrt ((xa - xb) * (xa - xb) + (ya - yb) * (ya - yb))).
  assert (Hs : 0 <= s) by apply sqrt_pos.
  assert (Hinv : / d' <= / d) by (apply Rinv_le_contravar; lra).
  assert (Harg : - s / d <= - s / d') by (unfold Rdiv; nra).
  destruct Harg as [Hlt | Heq].
  - apply Rlt_le, exp_increasing. exact Hlt.
  - rewrite Heq. lra.
Qed.



Section EdgeFacts.

Context {Id : Type} `{EqDec Id}.

(** The edge test, without the hypothesis of unique identifiers: the graph
    has the edge exactly when some pair of rows puts it. *)
Lemma has_edge_build_graph (patches_df : rows) (d t : npfloat) (u v : Id) :
  Nx.has_edge (build_graph patches_df d t) u v = true
  <-> exists st, In st (list_prod patches_df patches_df) /\ fires d t u v st.
Proof.
  split.
  - unfold Nx.has_edge.
    destruct (Nx.edge_weight (build_graph patches_df d t) u v) as [w |] eqn:Hw;
      [| discriminate].
    intros _. apply build_graph_edge_sound in Hw.
    destruct Hw as (st & Hin & Hf & _). exists st. tauto.
  - intros Hst. unfold build_graph. rewrite add_edges_list_prod.
    apply fold_visit_complete. right. exact Hst.
Qed.

Lemma has_edge_transfer (patches_df : rows) (d t d' t' : npfloat) (u v : Id) :
  (forall st, In st (list_prod patches_df patches_df) ->
              fires d t u v st -> fires d' t' u v st) ->
  Nx.has_edge (build_graph patches_df d t) u v = true ->
  Nx.has_edge (build_graph patches_df d' t') u v = true.
Proof.
  intros Himp Hedge. apply has_edge_build_graph in Hedge.
  destruct Hedge as (st & Hin & Hf).
  apply has_edge_build_graph. exists st. split; [exact Hin | exact (Himp st Hin Hf)].
Qed.

End EdgeFacts.

(** A patch of quality 0 is isolated: when every row with identifier [u] has
    quality 0 and the threshold is not negative, the graph has no edge from
    [u] and no edge to [u]. *)
Theorem zero_quality_patch_isolated {Id : Type} `{EqDec Id}
    (patches_df : rows) (dispersal_dist : npfloat) (t : R) (u : Id) :
  0 <= t ->
  (forall p, In (u, p) patches_df -> quality p = Fin 0) ->
  forall v : Id,
    Nx.has_edge (build_graph patches_df dispersal_dist (Fin t)) u v = false
    /\ Nx.has_edge (build_graph patches_df dispersal_dist (Fin t)) v u = false.
Proof.
  intros Ht Hzero v.
  split; apply not_true_is_false; intros Hedge;
    apply has_edge_build_graph in Hedge;
    destruct Hedge as ([[i p] [j p']] & Hin & (Hi & Hj & _ & Hgt));
    cbn [fst snd] in *; subst; apply in_prod_iff in Hin; destruct Hin as [Hs Ht'].
  - rewrite (proj1 (zero_quality_below_threshold p p' dispersal_dist t
                      (Hzero p Hs) Ht)) in Hgt. discriminate.
  - rewrite (proj2 (zero_quality_below_threshold p' p dispersal_dist t
                      (Hzero p' Ht') Ht)) in Hgt. discriminate.
Qed.

Lemma zero_quality_patch_isolated_witness :
  (0 <= 1 / 100
   /\ forall p, In (1%Z, p) barren_and_good -> quality p = Fin 0)
  /\ forall v : Z,
       Nx.has_edge (build_graph barren_and_good DISPERSAL_DISTANCE (Fin (1 / 100))) 1%Z v
       = false
       /\ Nx.has_edge (build_graph barren_and_good DISPERSAL_DISTANCE (Fin (1 / 100))) v 1%Z
          = false.
Proof.
  assert (Ht : 0 <= 1 / 100) by lra.
  assert (Hzero : forall p, In (1%Z, p) barren_and_good -> quality p = Fin 0).
  { intros p [Hp | [Hp | []]]; inversion Hp. reflexivity. }
  split; [split; assumption |].
  exact (zero_quality_patch_isolated barren_and_good DISPERSAL_DISTANCE (1 / 100) 1%Z
           Ht Hzero).
Defined.

Lemma has_edge_reverse {Id : Type} `{EqDec Id}
    (patches_df : rows) (d t : npfloat) (a b : Id) :
  Nx.has_edge (build_graph patches_df d t) a b = true ->
  Nx.has_edge (build_graph patches_df d t) b a = true.
Proof.
  intros Hedge. apply has_edge_build_graph in Hedge.
  destruct Hedge as ([s s'] & Hin & (Ha & Hb & Hne & Hgt)). cbn [fst snd] in *.
  apply has_edge_build_graph. exists (s', s). split.
  - apply in_prod_iff in Hin. apply in_prod_iff. tauto.
  - unfold fires. cbn [fst snd]. rewrite calculate_edge_weight_swap.
    repeat split; [exact Hb | exact Ha | congruence | exact Hgt].
Qed.

(** The graph is symmetric: it has the edge from [u] to [v] exactly when it
    has the edge from [v] to [u], for every input. *)
Theorem build_graph_edges_symmetric {Id : Type} `{EqDec Id}
    (patches_df : rows) (dispersal_dist weight_threshold : npfloat) (u v : Id) :
  Nx.has_edge (build_graph patches_df dispersal_dist weight_threshold) u v
  = Nx.has_edge (build_graph patches_df dispersal_dist weight_threshold) v u.
Proof.
  destruct (Nx.has_edge _ u v) eqn:Huv.
  - symmetry. apply has_edge_reverse. exact Huv.
  - symmetry. apply not_true_is_false. intros Hvu.
    apply has_edge_reverse in Hvu. congruence.
Qed.

(** With unique identifiers the two directions of an edge carry the same
    weight: the lookups of [u], [v] and of [v], [u] give the same result. *)
Theorem build_graph_weights_symmetric {Id : Type} `{EqDec Id}
    (patches_df : rows) (dispersal_dist weight_threshold : npfloat) (u v : Id) :
  NoDup (map fst patches_df) ->
  Nx.edge_weight (build_graph patches_df dispersal_dist weight_threshold) u v
  = Nx.edge_weight (build_graph patches_df dispersal_dist weight_threshold) v u.
Proof.
  intros Hnd.
  assert (Hdir : forall (a b : Id) (w : npfloat),
    Nx.edge_weight (build_graph patches_df dispersal_dist weight_threshold) a b = Some w ->
    Nx.edge_weight (build_graph patches_df dispersal_dist weight_threshold) b a = Some w).
  { intros a b w Hw.
    assert (Hrev : Nx.has_edge (build_graph patches_df dispersal_dist weight_threshold)
                               b a = true).
    { apply has_edge_reverse. unfold Nx.has_edge. rewrite Hw. reflexivity. }
    unfold Nx.has_edge in Hrev.
    destruct (Nx.edge_weight _ b a) as [w' |] eqn:Hw'; [| discriminate].
    f_equal.
    apply build_graph_edge_sound in Hw.
    destruct Hw as ([[i pa] [j pb]] & Hin & (Hi & Hj & _ & _) & ->).
    apply build_graph_edge_sound in Hw'.
    destruct Hw' as ([[j' pb'] [i' pa']] & Hin' & (Hj' & Hi' & _ & _) & ->).
    cbn [fst snd] in *. subst.
    apply in_prod_iff in Hin. apply in_prod_iff in Hin'.
    rewrite (NoDup_fst_functional _ _ _ _ Hnd (proj1 Hin') (proj2 Hin)).
    rewrite (NoDup_fst_functional _ _ _ _ Hnd (proj2 Hin') (proj1 Hin)).
    apply calculate_edge_weight_swap. }
  destruct (Nx.edge_weight _ u v) as [w |] eqn:Huv.
  - symmetry. exact (Hdir u v w Huv).
  - destruct (Nx.edge_weight _ v u) as [w |] eqn:Hvu; [| reflexivity].
    apply Hdir in Hvu. congruence.
Qed.

Lemma build_graph_weights_symmetric_witness :
  NoDup (map fst two_patches)
  /\ Nx.edge_weight (build_graph two_patches DISPERSAL_DISTANCE WEIGHT_THRESHOLD) 1%Z 2%Z
     = Nx.edge_weight (build_graph two_patches DISPERSAL_DISTANCE WEIGHT_THRESHOLD) 2%Z 1%Z.
Proof.
  assert (Hnd : NoDup (map fst two_patches)).
  { simpl. repeat constructor; simpl; intuition discriminate. }
  split; [exact Hnd |].
  exact (build_graph_weights_symmetric two_patches DISPERSAL_DISTANCE WEIGHT_THRESHOLD
           1%Z 2%Z Hnd).
Defined.

(** Lowering the threshold only adds edges: an edge of the graph built with
    threshold [t'] is an edge of the graph built with any [t <= t']. *)
Theorem build_graph_threshold_monotone {Id : Type} `{EqDec Id}
    (patches_df : rows) (dispersal_dist : npfloat) (t t' : R) (u v : Id) :
  t <= t' ->
  Nx.has_edge (build_graph patches_df dispersal_dist (Fin t')) u v = true ->
  Nx.has_edge (build_graph patches_df dispersal_dist (Fin t)) u v = true.
Proof.
  intros Hle. apply has_edge_transfer.
  intros st _ (Hu & Hv & Hne & Hgt). unfold fires.
  repeat split; try assumption.
  exact (gt_threshold_lower _ t t' Hle Hgt).
Qed.

(** A larger dispersal distance only adds edges, when every row is a real
    patch of non-negative quality. *)
Theorem build_graph_dispersal_monotone {Id : Type} `{EqDec Id}
    (patches_df : rows) (d d' : R) (weight_threshold : npfloat) (u v : Id) :
  Forall (fun row => exists px py q, snd row = real_patch px py q /\ 0 <= q)
         patches_df ->
  0 < d -> d <= d' ->
  Nx.has_edge (build_graph patches_df (Fin d) weight_threshold) u v = true ->
  Nx.has_edge (build_graph patches_df (Fin d') weight_threshold) u v = true.
Proof.
  intros Hreal Hd Hdd. apply has_edge_transfer.
  intros [s s'] Hin (Hu & Hv & Hne & Hgt). unfold fires. cbn [fst snd] in *.
  repeat split; try assumption.
  apply in_prod_iff in Hin. destruct Hin as [Hs Hs'].
  rewrite Forall_forall in Hreal.
  destruct (Hreal s Hs) as (xa & ya & qa & Hpa & Hqa).
  destruct (Hreal s' Hs') as (xb & yb & qb & Hpb & Hqb).
  rewrite Hpa, Hpb in *.
  rewrite calculate_edge_weight_real in Hgt by nra.
  rewrite calculate_edge_weight_real by nra.
  apply (gt_weight_higher _ _ _ (weight_formula_dispersal_le _ _ _ _ _ _ d d' Hd Hdd)).
  exact Hgt.
Qed.

Lemma coincident_patches_edge (d t : R) :
  0 < d -> t < 1 ->
  Nx.has_edge (build_graph coincident_patches (Fin d) (Fin t)) 1%Z 2%Z = true.
Proof.
  intros Hd Ht. apply has_edge_build_graph.
  exists ((1%Z, real_patch 0 0 1), (2%Z, real_patch 0 0 1)). split.
  - simpl. auto.
  - unfold fires. cbn [fst snd]. repeat split; [discriminate |].
    rewrite calculate_edge_weight_real by lra.
    unfold weight_formula. simpl. apply Rltb_true.
    replace ((0 - 0) * (0 - 0) + (0 - 0) * (0 - 0)) with 0 by ring.
    rewrite sqrt_0. replace (- 0 / d) with 0 by (field; lra).
    rewrite exp_0. replace (1 * 1) with 1 by ring. rewrite sqrt_1. lra.
Qed.

Lemma build_graph_threshold_monotone_witness :
  (0 <= 1 / 100
   /\ Nx.has_edge (build_graph coincident_patches (Fin 15) (Fin (1 / 100))) 1%Z 2%Z = true)
  /\ Nx.has_edge (build_graph coincident_patches (Fin 15) (Fin 0)) 1%Z 2%Z = true.
Proof.
  assert (Hle : 0 <= 1 / 100) by lra.
  assert (Hedge : Nx.has_edge (build_graph coincident_patches (Fin 15) (Fin (1 / 100)))
                              1%Z 2%Z = true)
    by (apply coincident_patches_edge; lra).
  split; [split; assumption |].
  exact (build_graph_threshold_monotone coincident_patches (Fin 15) 0 (1 / 100)
           1%Z 2%Z Hle Hedge).
Defined.

Lemma build_graph_dispersal_monotone_witness :
  (Forall (fun row : Z * patch =>
             exists px py q, snd row = real_patch px py q /\ 0 <= q)
          coincident_patches
   /\ 0 < 15 /\ 15 <= 30
   /\ Nx.has_edge (build_graph coincident_patches (Fin 15) WEIGHT_THRESHOLD) 1%Z 2%Z
      = true)
  /\ Nx.has_edge (build_graph coincident_patches (Fin 30) WEIGHT_THRESHOLD) 1%Z 2%Z
     = true.
Proof.
  assert (Hreal : Forall (fun row : Z * patch =>
                            exists px py q, snd row = real_patch px py q /\ 0 <= q)
                         coincident_patches).
  { repeat constructor; exists 0, 0, 1; split; try reflexivity; lra. }
  assert (Hd : 0 < 15) by lra.
  assert (Hdd : 15 <= 30) by lra.
  assert (Hedge : Nx.has_edge (build_graph coincident_patches (Fin 15) WEIGHT_THRESHOLD)
                              1%Z 2%Z = true)
    by (apply coincident_patches_edge; lra).
  split; [repeat split; assumption |].
  exact (build_graph_dispersal_monotone coincident_patches 15 30 WEIGHT_THRESHOLD
           1%Z 2%Z Hreal Hd Hdd Hedge).
Defined.

(** ** Nodes of the constructed graph *)

Section NodeFacts.

Context {Id : Type} `{EqDec Id}.

Lemma add_nodes_keys_in (patches_df : rows) :
  forall (G : Nx.DiGraph Id) (i : Id),
    In i (Dict.keys (Nx.node (add_nodes patches_df G)))
    <-> In i (map fst patches_df) \/ In i (Dict.keys (Nx.node G)).
Proof.
  unfold add_nodes.
  induction patches_df as [| row rest IH]; intros G i; simpl; [tauto |].
  rewrite IH, node_add_node, keys_set. unfold Dict.mem.
  destruct (Dict.get (fst row) (Nx.node G)) eqn:Hget.
  - assert (Hin : In (fst row) (Dict.keys (Nx.node G))).
    { destruct (in_dec eq_dec (fst row) (Dict.keys (Nx.node G))) as [Hin | Hnot];
        [exact Hin |].
      apply get_None_keys in Hnot. congruence. }
    split; [tauto |]. intros [[<- | Hr] | Hg]; tauto.
  - rewrite in_app_iff. simpl. tauto.
Qed.

Lemma add_nodes_keys_order (patches_df : rows) :
  forall G : Nx.DiGraph Id,
    NoDup (Dict.keys (Nx.node G) ++ map fst patches_df) ->
    Dict.keys (Nx.node (add_nodes patches_df G))
    = Dict.keys (Nx.node G) ++ map fst patches_df.
Proof.
  unfold add_nodes.
  induction patches_df as [| row rest IH]; intros G Hnd; simpl.
  - symmetry. apply app_nil_r.
  - assert (Hkeys : Dict.keys (Nx.node (Nx.add_node G (fst row) (attrs_of (snd row))))
                    = Dict.keys (Nx.node G) ++ [fst row]).
    { rewrite node_add_node, keys_set. unfold Dict.mem.
      destruct (Dict.get (fst row) (Nx.node G)) eqn:Hget; [| reflexivity].
      exfalso. apply NoDup_remove_2 in Hnd. apply Hnd.
      apply in_or_app. left.
      destruct (in_dec eq_dec (fst row) (Dict.keys (Nx.node G))) as [Hin | Hnot];
        [exact Hin |].
      apply get_None_keys in Hnot. congruence. }
    rewrite IH; rewrite Hkeys, <- app_assoc; [reflexivity | exact Hnd].
Qed.

Lemma set_Forall_snd {V : Type} (P : V -> Prop) (k : Id) (v : V) (d : Dict.dict Id V) :
  Forall (fun kv => P (snd kv)) d -> P v ->
  Forall (fun kv => P (snd kv)) (Dict.set k v d).
Proof.
  intros Hall Hv.
  induction d as [| [k0 v0] d IH]; simpl; [constructor; [exact Hv | constructor] |].
  inversion Hall as [| ? ? H0 Hd]; subst.
  destruct (eq_dec k k0); constructor; try assumption. exact (IH Hd).
Qed.

Lemma add_nodes_all_attrs (patches_df : rows) :
  forall G : Nx.DiGraph Id,
    Forall (fun na => snd na <> None) (Nx.node G) ->
    Forall (fun na => snd na <> None) (Nx.node (add_nodes patches_df G)).
Proof.
  unfold add_nodes.
  induction patches_df as [| row rest IH]; intros G Hall; simpl; [exact Hall |].
  apply IH. rewrite node_add_node.
  apply (set_Forall_snd (fun a => a <> None)); [exact Hall | discriminate].
Qed.

Lemma positions_of_attributed (nodes : Dict.dict Id (option Nx.node_attrs)) :
  Forall (fun na => snd na <> None) nodes ->
  Dict.keys
    (flat_map (fun na => match snd na with
                         | Some a => [(fst na, Nx.attr_pos a)]
                         | None => []
                         end) nodes)
  = Dict.keys nodes
  /\ forall i,
       Dict.get i
         (flat_map (fun na => match snd na with
                              | Some a => [(fst na, Nx.attr_pos a)]
                              | None => []
                              end) nodes)
       = match Dict.get i nodes with
         | Some (Some a) => Some (Nx.attr_pos a)
         | _ => None
         end.
Proof.
  induction nodes as [| [k [a |]] nodes IH]; intros Hall; simpl.
  - split; reflexivity.
  - inversion Hall as [| ? ? _ Hrest]; subst.
    destruct (IH Hrest) as [IHk IHg]. split.
    + unfold Dict.keys in *. simpl. rewrite IHk. reflexivity.
    + intros i. destruct (eq_dec i k); [reflexivity | apply IHg].
  - inversion Hall as [| ? ? Hk _]; subst. simpl in Hk. congruence.
Qed.

End NodeFacts.

(** Every identifier of the input is a node of the graph, and the graph has
    no other node, whether or not the patch has any edge. *)
Theorem build_graph_nodes_are_identifiers {Id : Type} `{EqDec Id}
    (patches_df : rows) (dispersal_dist weight_threshold : npfloat) (i : Id) :
  In i (Dict.keys (Nx.node (build_graph patches_df dispersal_dist weight_threshold)))
  <-> In i (map fst patches_df).
Proof.
  rewrite build_graph_node, add_nodes_keys_in. simpl. tauto.
Qed.

(** With unique identifiers the nodes of the graph are the identifiers in
    file order, one node per row. *)
Theorem build_graph_nodes_in_file_order {Id : Type} `{EqDec Id}
    (patches_df : rows) (dispersal_dist weight_threshold : npfloat) :
  NoDup (map fst patches_df) ->
  Dict.keys (Nx.node (build_graph patches_df dispersal_dist weight_threshold))
  = map fst patches_df
  /\ length (Nx.node (build_graph patches_df dispersal_dist weight_threshold))
     = length patches_df.
Proof.
  intros Hnd.
  assert (Hkeys : Dict.keys (Nx.node (build_graph patches_df dispersal_dist
                                        weight_threshold))
                  = map fst patches_df).
  { rewrite build_graph_node. apply (add_nodes_keys_order patches_df Nx.empty Hnd). }
  split; [exact Hkeys |].
  rewrite <- (length_map fst patches_df), <- Hkeys.
  unfold Dict.keys. symmetry. apply length_map.
Qed.

Lemma build_graph_nodes_in_file_order_witness :
  NoDup (map fst two_patches)
  /\ Dict.keys (Nx.node (build_graph two_patches DISPERSAL_DISTANCE WEIGHT_THRESHOLD))
     = map fst two_patches
  /\ length (Nx.node (build_graph two_patches DISPERSAL_DISTANCE WEIGHT_THRESHOLD))
     = length two_patches.
Proof.
  assert (Hnd : NoDup (map fst two_patches)).
  { simpl. repeat constructor; simpl; intuition discriminate. }
  split; [exact Hnd |].
  exact (build_graph_nodes_in_file_order two_patches DISPERSAL_DISTANCE
           WEIGHT_THRESHOLD Hnd).
Defined.

(** Every node of the graph has a position for the drawing: the positions
    read back from the graph list the nodes in node order, and the position
    of an identifier is the [(x, y)] of the last row carrying it. *)
Theorem every_node_has_a_position {Id : Type} `{EqDec Id}
    (patches_df : rows) (dispersal_dist weight_threshold : npfloat) :
  let G := build_graph patches_df dispersal_dist weight_threshold in
  Dict.keys (get_node_attributes_pos G) = Dict.keys (Nx.node G)
  /\ forall i : Id,
       Dict.get i (get_node_attributes_pos G)
       = option_map (fun p => (x p, y p)) (last_row i patches_df).
Proof.
  intros G. unfold get_node_attributes_pos, G. rewrite build_graph_node.
  destruct (positions_of_attributed (Nx.node (add_nodes patches_df Nx.empty)))
    as [Hkeys Hget].
  { apply add_nodes_all_attrs. constructor. }
  split; [exact Hkeys |].
  intros i. rewrite Hget, add_nodes_get.
  destruct (last_row i patches_df); reflexivity.
Qed.

(** ** The edge list *)

Section EdgeListFacts.

Context {Id : Type} `{EqDec Id}.

Lemma In_set_inv {V : Type} (k k0 : Id) (v a : V) (d : Dict.dict Id V) :
  In (k, a) (Dict.set k0 v d) -> (k = k0 /\ a = v) \/ In (k, a) d.
Proof.
  induction d as [| [k1 v1] d IH]; simpl.
  - intros [Heq | []]. inversion Heq. tauto.
  - destruct (eq_dec k0 k1) as [-> | Hne]; simpl.
    + intros [Heq | Hin]; [inversion Heq; tauto | tauto].
    + intros [Heq | Hin]; [tauto |]. destruct (IH Hin); tauto.
Qed.

(** No successor dictionary lists a target twice. *)
Lemma successors_NoDup_touch (G : Nx.DiGraph Id) (n : Id) :
  (forall u d, In (u, d) (Nx.adj G) -> NoDup (Dict.keys d)) ->
  forall u d, In (u, d) (Nx.adj (Nx.touch G n)) -> NoDup (Dict.keys d).
Proof.
  intros Hok u d. unfold Nx.touch.
  destruct (Dict.mem n (Nx.adj G)); [apply Hok |].
  simpl. intros Hin. apply In_set_inv in Hin.
  destruct Hin as [[_ ->] | Hin]; [constructor | exact (Hok u d Hin)].
Qed.

Lemma successors_NoDup_add_edge (G : Nx.DiGraph Id) (a b : Id) (w : npfloat) :
  (forall u d, In (u, d) (Nx.adj G) -> NoDup (Dict.keys d)) ->
  forall u d, In (u, d) (Nx.adj (Nx.add_edge G a b w)) -> NoDup (Dict.keys d).
Proof.
  intros Hok u d. unfold Nx.add_edge.
  set (G1 := Nx.touch (Nx.touch G a) b).
  assert (Hok1 : forall u d, In (u, d) (Nx.adj G1) -> NoDup (Dict.keys d)).
  { apply successors_NoDup_touch, successors_NoDup_touch. exact Hok. }
  simpl. intros Hin. apply In_set_inv in Hin.
  destruct Hin as [[_ ->] | Hin]; [| exact (Hok1 u d Hin)].
  apply NoDup_keys_set.
  destruct (Dict.get a (Nx.adj G1)) as [succ |] eqn:Hget; [| constructor].
  apply (Hok1 a). apply get_In. exact Hget.
Qed.

Lemma successors_NoDup_add_node (G : Nx.DiGraph Id) (n : Id) (a : Nx.node_attrs) :
  (forall u d, In (u, d) (Nx.adj G) -> NoDup (Dict.keys d)) ->
  forall u d, In (u, d) (Nx.adj (Nx.add_node G n a)) -> NoDup (Dict.keys d).
Proof.
  intros Hok u d. unfold Nx.add_node.
  destruct (Dict.mem n (Nx.node G)); simpl; [apply Hok |].
  intros Hin. apply In_set_inv in Hin.
  destruct Hin as [[_ ->] | Hin]; [constructor | exact (Hok u d Hin)].
Qed.

Lemma successors_NoDup_build_graph (patches_df : rows) (d t : npfloat) :
  forall u succ, In (u, succ) (Nx.adj (build_graph patches_df d t)) ->
                 NoDup (Dict.keys succ).
Proof.
  unfold build_graph. rewrite add_edges_list_prod.
  assert (Hnodes : forall G : Nx.DiGraph Id,
            (forall u s, In (u, s) (Nx.adj G) -> NoDup (Dict.keys s)) ->
            forall u s, In (u, s) (Nx.adj (add_nodes patches_df G)) ->
                        NoDup (Dict.keys s)).
  { unfold add_nodes.
    induction patches_df as [| row rest IH]; intros G Hok; simpl; [exact Hok |].
    apply IH. apply successors_NoDup_add_node. exact Hok. }
  assert (Hstart : forall u s, In (u, s) (Nx.adj (add_nodes patches_df (@Nx.empty Id))) ->
                               NoDup (Dict.keys s)).
  { apply Hnodes. intros u s []. }
  revert Hstart. generalize (add_nodes patches_df (@Nx.empty Id)).
  induction (list_prod patches_df patches_df) as [| st L IH]; intros G Hok; simpl;
    [exact Hok |].
  apply IH. unfold visit, visit_pair.
  destruct (eq_dec _ _); [exact Hok |]. destruct (gt _ _); [| exact Hok].
  apply successors_NoDup_add_edge. exact Hok.
Qed.

(** An element of the edge list is found, with its weight, by the lookup. *)
Lemma In_edges_edge_weight (G : Nx.DiGraph Id) (u v : Id) (w : npfloat) :
  NoDup (Dict.keys (Nx.adj G)) ->
  (forall a d, In (a, d) (Nx.adj G) -> NoDup (Dict.keys d)) ->
  In (u, v, w) (Nx.edges G) -> Nx.edge_weight G u v = Some w.
Proof.
  intros Hnd Hok Hin. unfold Nx.edges in Hin.
  apply in_flat_map in Hin. destruct Hin as ([u' succ] & Hadj & Hin).
  apply in_map_iff in Hin. destruct Hin as ([v' w'] & Heq & Hsucc).
  inversion Heq; subst.
  unfold Nx.edge_weight. rewrite (In_NoDup_get _ _ _ Hnd Hadj).
  apply In_NoDup_get; [exact (Hok u succ Hadj) | exact Hsucc].
Qed.

Lemma build_graph_listed_edge (patches_df : rows) (d t : npfloat) (u v : Id) (w : npfloat) :
  In (u, v, w) (Nx.edges (build_graph patches_df d t)) ->
  Nx.edge_weight (build_graph patches_df d t) u v = Some w.
Proof.
  apply In_edges_edge_weight;
    [apply NoDup_adj_build_graph | apply successors_NoDup_build_graph].
Qed.

End EdgeListFacts.

(** Every edge listed by the graph joins two identifiers of the input and
    carries a weight strictly above the threshold, computed by
    [calculate_edge_weight] from two rows with these identifiers. *)
Theorem build_graph_edges_above_threshold {Id : Type} `{EqDec Id}
    (patches_df : rows) (dispersal_dist weight_threshold : npfloat) :
  Forall
    (fun e : Id * Id * npfloat =>
       gt (snd e) weight_threshold = true
       /\ exists pu pv,
            In (fst (fst e), pu) patches_df /\ In (snd (fst e), pv) patches_df
            /\ snd e = calculate_edge_weight pu pv dispersal_dist)
    (Nx.edges (build_graph patches_df dispersal_dist weight_threshold)).
Proof.
  apply Forall_forall. intros [[u v] w] Hin. cbn [fst snd].
  apply build_graph_listed_edge, build_graph_edge_sound in Hin.
  destruct Hin as ([[i pu] [j pv]] & Hprod & (Hi & Hj & _ & Hgt) & Hw).
  cbn [fst snd] in *. subst i j.
  apply in_prod_iff in Hprod. destruct Hprod as [Hu Hv].
  split; [rewrite Hw; exact Hgt |].
  exists pu, pv. tauto.
Qed.

(** The edge widths of the drawing: the lookup [G[u][v]['weight']] succeeds
    for every edge listed by [G.edges()], and the width is five times the
    listed weight. *)
Theorem edge_widths_never_fail {Id : Type} `{EqDec Id}
    (patches_df : rows) (dispersal_dist weight_threshold : npfloat) :
  let G := build_graph patches_df dispersal_dist weight_threshold in
  edge_widths G = map (fun e => Some (mul (snd e) (Fin 5))) (Nx.edges G).
Proof.
  intros G. unfold edge_widths. apply map_ext_in.
  intros [[u v] w] Hin. cbn [fst snd].
  unfold G in *. rewrite (build_graph_listed_edge _ _ _ _ _ _ Hin). reflexivity.
Qed.

(** ** The ranking *)

Lemma stable_sort_of_ascending {Id : Type} (l : list (Id * R)) :
  ascending l -> stable_sort snd Rltb l = l.
Proof.
  unfold ascending.
  induction l as [| a l IH]; intros Hs; simpl; [reflexivity |].
  inversion Hs as [| ? ? Hl Ha]; subst.
  rewrite (IH Hl). destruct l as [| b l']; simpl; [reflexivity |].
  inversion Ha as [| ? ? Hab _]; subst.
  rewrite Rltb_false by lra. reflexivity.
Qed.

Lemma rev_descending {Id : Type} (l : list (Id * R)) :
  descending l -> ascending (rev l).
Proof.
  unfold ascending, descending.
  induction l as [| a l IH]; intros Hs; simpl; [constructor |].
  inversion Hs as [| ? ? Hl Ha]; subst.
  specialize (IH Hl).
  assert (Hsnoc : forall m : list (Id * R),
            StronglySorted (fun u v => snd u <= snd v) m ->
            Forall (fun c => snd c <= snd a) m ->
            StronglySorted (fun u v => snd u <= snd v) (m ++ [a])).
  { induction m as [| c m IHm]; intros Hm Hall; simpl.
    - constructor; constructor.
    - inversion Hm as [| ? ? Hm' Hc]; subst.
      inversion Hall as [| ? ? Hca Hall']; subst.
      constructor; [exact (IHm Hm' Hall') |].
      apply Forall_app. split; [exact Hc |].
      constructor; [exact Hca | constructor]. }
  apply Hsnoc; [exact IH |].
  apply Forall_forall. intros c Hc. apply in_rev in Hc.
  rewrite Forall_forall in Ha. exact (Ha c Hc).
Qed.

Lemma sorted_of_descending {Id : Type} (l : list (Id * R)) :
  descending l -> sorted snd Rltb true l = l.
Proof.
  intros Hd. unfold sorted.
  rewrite (stable_sort_of_ascending (rev l) (rev_descending l Hd)).
  apply rev_involutive.
Qed.

(** Scores that the solver already lists in descending order are printed in
    exactly that order. *)
Theorem sorted_ranks_keeps_ranked_input {Id : Type} (items : list (Id * R)) :
  descending items -> sorted_ranks items = items.
Proof.
  intros Hd. unfold sorted_ranks. apply sorted_of_descending. exact Hd.
Qed.

Lemma sorted_ranks_keeps_ranked_input_witness :
  descending [(7%Z, 3 / 4); (3%Z, 1 / 4)]
  /\ sorted_ranks [(7%Z, 3 / 4); (3%Z, 1 / 4)] = [(7%Z, 3 / 4); (3%Z, 1 / 4)].
Proof.
  assert (Hd : descending [(7%Z, 3 / 4); (3%Z, 1 / 4)]).
  { unfold descending. repeat constructor. simpl. lra. }
  split; [exact Hd |].
  exact (sorted_ranks_keeps_ranked_input [(7%Z, 3 / 4); (3%Z, 1 / 4)] Hd).
Defined.

(** Ranking a ranked list changes nothing. *)
Theorem sorted_ranks_idempotent {Id : Type} (items : list (Id * R)) :
  sorted_ranks (sorted_ranks items) = sorted_ranks items.
Proof.
  unfold sorted_ranks at 1. apply sorted_of_descending.
  unfold sorted_ranks, sorted. apply rev_ascending, stable_sort_ascending.
Qed.

(** The first line of the ranking has the highest score of all patches. *)
Theorem sorted_ranks_head_is_maximal {Id : Type}
    (items : list (Id * R)) (top : Id * R) (rest : list (Id * R)) :
  sorted_ranks items = top :: rest ->
  forall it, In it items -> snd it <= snd top.
Proof.
  intros Hout it Hin.
  assert (Hdesc : descending (sorted_ranks items)).
  { unfold sorted_ranks, sorted. apply rev_ascending, stable_sort_ascending. }
  assert (Hperm : Permutation items (sorted_ranks items))
    by (unfold sorted_ranks; apply sorted_perm).
  rewrite Hout in Hdesc, Hperm.
  apply (Permutation_in _ Hperm) in Hin.
  inversion Hdesc as [| ? ? _ Hall]; subst.
  destruct Hin as [<- | Hin]; [lra |].
  rewrite Forall_forall in Hall. exact (Hall it Hin).
Qed.

Lemma sorted_ranks_head_is_maximal_witness :
  sorted_ranks [(1%Z, 1 / 4); (2%Z, 3 / 4)] = (2%Z, 3 / 4) :: [(1%Z, 1 / 4)]
  /\ forall it, In it [(1%Z, 1 / 4); (2%Z, 3 / 4)] -> snd it <= snd (2%Z, 3 / 4).
Proof.
  assert (Hout : sorted_ranks [(1%Z, 1 / 4); (2%Z, 3 / 4)]
                 = (2%Z, 3 / 4) :: [(1%Z, 1 / 4)]).
  { unfold sorted_ranks, sorted. simpl. rewrite Rltb_true by lra. reflexivity. }
  split; [exact Hout |].
  exact (sorted_ranks_head_is_maximal [(1%Z, 1 / 4); (2%Z, 3 / 4)] (2%Z, 3 / 4)
           [(1%Z, 1 / 4)] Hout).
Defined.
